(** * chemstars: edge aggregation and label synthesis

    A shallow embedding of the two pipelines of the repository,
    [ConnPreProc_new3_weighted.py] (CSV) and [airtable_etl.py] (Airtable),
    and the properties of their aggregated edges and detailed labels.

    Python [str] values are sequences of Unicode code points: [len], slicing
    and the strip functions all count code points, so a string is a list of
    code points ([N]).  Dictionaries are [gmap]s, Python [set]s are [gset]s;
    the [connection_index] dictionary, whose insertion order drives the order
    of the pair expansion, is an association list. *)

From Stdlib Require Import Ascii.
From stdpp Require Import strings gmap list sorting.

Set Default Proof Using "Type".

(** ** Python strings *)

Abbreviation pystr := (list N).

(** An ASCII literal as a Python string. *)
Definition str_of (s : string) : pystr :=
  (λ a, Ascii.N_of_ascii a) <$> String.list_ascii_of_string s.

Definition COMMA : N := 44%N.
Definition SPACE : N := 32%N.
(** U+2026 HORIZONTAL ELLIPSIS, the truncation marker. *)
Definition ELLIPSIS : N := 8230%N.
(** U+2013 EN DASH, used by the location normaliser. *)
Definition EN_DASH : N := 8211%N.

(** The characters [str.strip()] and [str.split()] treat as white space. *)
Definition py_isspace (c : N) : bool :=
  (((9 <=? c) && (c <=? 13)) || ((28 <=? c) && (c <=? 32))
   || (c =? 133) || (c =? 160) || (c =? 5760)
   || ((8192 <=? c) && (c <=? 8202))
   || (c =? 8232) || (c =? 8233) || (c =? 8239) || (c =? 8287)
   || (c =? 12288))%N.

(** [s.lstrip(chars)] and [s.rstrip(chars)], for a set of characters given
    by its membership test. *)
Fixpoint lstrip_by (p : N → bool) (s : pystr) : pystr :=
  match s with
  | [] => []
  | c :: s' => if p c then lstrip_by p s' else s
  end.

Fixpoint rstrip_by (p : N → bool) (s : pystr) : pystr :=
  match s with
  | [] => []
  | c :: s' =>
      match rstrip_by p s' with
      | [] => if p c then [] else [c]
      | r => c :: r
      end
  end.

Definition in_chars (chars : pystr) (c : N) : bool := bool_decide (c ∈ chars).

(** [s.rstrip(chars)] *)
Definition rstrip_chars (chars : pystr) (s : pystr) : pystr :=
  rstrip_by (in_chars chars) s.
(** [s.rstrip()] *)
Definition rstrip (s : pystr) : pystr := rstrip_by py_isspace s.
(** [s.strip()] *)
Definition strip (s : pystr) : pystr := rstrip_by py_isspace (lstrip_by py_isspace s).

(** [s.split()]: the maximal runs of non-space characters. *)
Fixpoint split_go (cur : pystr) (s : pystr) : list pystr :=
  match s with
  | [] => match cur with [] => [] | _ => [reverse cur] end
  | c :: s' =>
      if py_isspace c
      then match cur with
           | [] => split_go [] s'
           | _ => reverse cur :: split_go [] s'
           end
      else split_go (c :: cur) s'
  end.
Definition split (s : pystr) : list pystr := split_go [] s.

(** [sep.join(l)] *)
Fixpoint join (sep : pystr) (l : list pystr) : pystr :=
  match l with
  | [] => []
  | x :: l' =>
      match l' with
      | [] => x
      | _ => x ++ sep ++ join sep l'
      end
  end.

Fixpoint startswith (pre s : pystr) : bool :=
  match pre, s with
  | [], _ => true
  | _ :: _, [] => false
  | a :: pre', b :: s' => (a =? b)%N && startswith pre' s'
  end.

(** [s.replace(old, new)] for a non-empty [old]: occurrences are replaced
    from the left and do not overlap; [skip] counts the characters of the
    occurrence just replaced that are still to be passed over. *)
Fixpoint replace_go (old new : pystr) (skip : nat) (s : pystr) : pystr :=
  match s with
  | [] => []
  | c :: s' =>
      match skip with
      | S k => replace_go old new k s'
      | O =>
          if startswith old s
          then new ++ replace_go old new (length old - 1) s'
          else c :: replace_go old new 0 s'
      end
  end.
Definition replace (old new s : pystr) : pystr := replace_go old new 0 s.

(** [s.split(sep, 1)] when [sep in s]: the text before and after the first
    occurrence of [sep]; [None] when [sep] does not occur. *)
Fixpoint split_once (sep s : pystr) : option (pystr * pystr) :=
  if startswith sep s then Some ([], drop (length sep) s)
  else match s with
       | [] => None
       | c :: s' =>
           match split_once sep s' with
           | Some (a, b) => Some (c :: a, b)
           | None => None
           end
       end.

(** The order of Python's string comparison: lexicographic on code points. *)
Fixpoint str_ltb (a b : pystr) : bool :=
  match a, b with
  | _, [] => false
  | [], _ :: _ => true
  | x :: a', y :: b' =>
      if (x <? y)%N then true
      else if (y <? x)%N then false
      else str_ltb a' b'
  end.

Definition str_le (a b : pystr) : Prop := str_ltb b a = false.

Global Instance str_le_dec : RelDecision str_le :=
  λ a b, decide (str_ltb b a = false).

(** [sorted(l)] on strings.  [str_le] is a total order, so every sorting
    algorithm returns the same list. *)
Definition sorted (l : list pystr) : list pystr := merge_sort str_le l.

(** [tuple(sorted([a, b]))] *)
Definition sorted_pair (a b : pystr) : pystr * pystr :=
  if str_ltb b a then (b, a) else (a, b).

(** ASCII lower-casing; [str.lower] agrees with it on ASCII text. *)
Definition ascii_lower (s : pystr) : pystr :=
  (λ c, if (65 <=? c) && (c <=? 90) then c + 32 else c)%N <$> s.

(** Python truthiness of a string: [if s:] *)
Definition nonempty (s : pystr) : bool :=
  match s with [] => false | _ :: _ => true end.

(** [parts.append(x)] under a guard. *)
Definition append_if (c : bool) (x : pystr) (parts : list pystr) : list pystr :=
  if c then parts ++ [x] else parts.

(** [location_str.replace(' - ', '-').replace(' – ', '-').strip()] *)
Definition replace_dashes (s : pystr) : pystr :=
  strip (replace ([SPACE; EN_DASH; SPACE]) (str_of "-")
           (replace (str_of " - ") (str_of "-") s)).

(** The number of pairs out of [n], C(n,2). *)
Definition choose2 (n : nat) : nat := n * (n - 1) / 2.

(** [itertools.combinations(l, 2)]: the pairs of positions [i < j], in
    lexicographic order of the positions. *)
Fixpoint combinations2 {A} (l : list A) : list (A * A) :=
  match l with
  | [] => []
  | x :: l' => (pair x <$> l') ++ combinations2 l'
  end.

(** [sub in s]: the string [s] has [sub] as a substring. *)
Definition contains (s sub : pystr) : Prop := ∃ pre suf, s = pre ++ sub ++ suf.

(** Python truthiness of a value that may be missing: [if v:] for [None]
    or a string. *)
Definition truthy (v : option pystr) : bool :=
  match v with Some (_ :: _) => true | _ => false end.

(** An order in which Python may iterate a set: an enumeration of its
    elements, each once. *)
Definition iteration_order `{Countable A} (iter : gset A → list A) : Prop :=
  ∀ s, iter s ≡ₚ elements s.

(** ** The CSV pipeline, [ConnPreProc_new3_weighted.py] *)

Module Csv.

(** A cell of the [Connection_full] column: a string, or another object
    (pandas reads an empty cell as a float) given by its [str()]. *)
Inductive cell := CellStr (s : pystr) | CellOther (repr : pystr).

Global Instance cell_eq_dec : EqDecision cell.
Proof. solve_decision. Defined.

Definition cell_to_sum (c : cell) : pystr + pystr :=
  match c with CellStr s => inl s | CellOther r => inr r end.
Definition cell_of_sum (x : pystr + pystr) : cell :=
  match x with inl s => CellStr s | inr r => CellOther r end.

Global Instance cell_countable : Countable cell.
Proof. apply (inj_countable' cell_to_sum cell_of_sum). by intros []. Defined.

(** A row of [startup_connections_full.csv]; names and types are strings. *)
Record row := Row {
  Source : pystr;
  Target : pystr;
  Type_ : pystr;
  Connection_full : cell
}.

(** A value of [combined_edges]. *)
Record edge_info := EdgeInfo {
  weight : nat;
  types : gset pystr;
  connections : gset cell
}.

Definition empty_info : edge_info := EdgeInfo 0 ∅ ∅.

(** The body of the loop over [edges_df.iterrows()]. *)
Definition add_row (m : gmap (pystr * pystr) edge_info) (r : row)
  : gmap (pystr * pystr) edge_info :=
  let node_pair := sorted_pair (Source r) (Target r) in
  let edge_info := default empty_info (m !! node_pair) in
  <[node_pair :=
      EdgeInfo (weight edge_info + 1)
               ({[Type_ r]} ∪ types edge_info)
               ({[Connection_full r]} ∪ connections edge_info)]> m.

Definition combined_edges (rows : list row) : gmap (pystr * pystr) edge_info :=
  fold_left add_row rows ∅.

(** The key under which a row, one sharing event, is folded in. *)
Definition row_key (r : row) : pystr * pystr := sorted_pair (Source r) (Target r).

(** [combined_edges[k]['weight']], 0 for a key that has no entry yet. *)
Definition weight_of (m : gmap (pystr * pystr) edge_info) (k : pystr * pystr) : nat :=
  weight (default empty_info (m !! k)).

(** The invariant of the entries of [combined_edges]: the key is sorted
    and the weight bounds the number of types, which is at least 1. *)
Definition edge_ok (k : pystr * pystr) (info : edge_info) : Prop :=
  str_le k.1 k.2 ∧ 1 ≤ size (types info) ≤ weight info.

Definition OTHER : pystr := str_of "other".

(** The [parsed] dictionary before the loop over the connections. *)
Definition parsed_init : gmap pystr (list pystr) :=
  list_to_map [(str_of "city", []); (str_of "country", []);
               (str_of "competency", []); (str_of "impact", []);
               (str_of "target_market", []); (OTHER, [])].

Definition LABEL_MAX : nat := 120.

(** The fields of a [weighted_edges] record the properties are about. *)
Record weighted_edge := WeightedEdge {
  out_Source : pystr;
  out_Target : pystr;
  out_Weight : nat;
  out_Types : pystr;
  out_LabelDetailed : pystr
}.

(** The string a connection is, when it is one. *)
Definition cell_str (c : cell) : option pystr :=
  match c with CellStr s => Some s | CellOther _ => None end.

(** [';'.join(sorted(info['connections']))], the [Connections] column of the
    record: [sorted] compares strings with strings only and [join] takes
    strings only, so that it raises [TypeError] ([None]) unless every
    connection is a string. *)
Definition connections_column (conns : gset cell) : option pystr :=
  (λ strs, join (str_of ";") (sorted strs)) <$> mapM cell_str (elements conns).

Section label.
(** [str.lower], Python's Unicode lower-casing. *)
Variable lower : pystr → pystr.

(** [' '.join(s.split()).lower()] *)
Definition norm_key (s : pystr) : pystr := lower (join [SPACE] (split s)).

(** The loop of [dedupe_preserve_order], from the state [seen]. *)
Fixpoint dedupe_go (seen : gset pystr) (seq : list pystr) : list pystr :=
  match seq with
  | [] => []
  | s :: rest =>
      let key := norm_key s in
      if nonempty key && bool_decide (key ∉ seen)
      then s :: dedupe_go ({[key]} ∪ seen) rest
      else dedupe_go seen rest
  end.

Definition dedupe_preserve_order (seq : list pystr) : list pystr :=
  dedupe_go ∅ seq.

(** The body of the loop over [info['connections']]. *)
Definition parse_conn (parsed : gmap pystr (list pystr)) (conn : cell)
  : gmap pystr (list pystr) :=
  match conn with
  | CellStr s =>
      match split_once (str_of ": ") s with
      | Some (t, v) =>
          let t := lower (strip t) in
          let v := strip v in
          match parsed !! t with
          | Some l => <[t := l ++ [v]]> parsed
          | None => <[OTHER := parsed !!! OTHER ++ [v]]> parsed
          end
      | None => <[OTHER := parsed !!! OTHER ++ [s]]> parsed
      end
  | CellOther repr => <[OTHER := parsed !!! OTHER ++ [repr]]> parsed
  end.

(** The list of [parsed] a connection is appended to, and what is
    appended there. *)
Definition filed_as (conn : cell) : pystr * pystr :=
  match conn with
  | CellStr s =>
      match split_once (str_of ": ") s with
      | Some (t, v) =>
          if decide (lower (strip t) ∈ dom parsed_init)
          then (lower (strip t), strip v)
          else (OTHER, strip v)
      | None => (OTHER, s)
      end
  | CellOther repr => (OTHER, repr)
  end.

(** [conns] is [info['connections']] in the order the set is iterated. *)
Definition parse (conns : list cell) : gmap pystr (list pystr) :=
  fold_left parse_conn conns parsed_init.

Definition norm_location (s : pystr) : pystr := replace_dashes s.

(** [norm_location(parsed[k][0]) if parsed[k] else ''] *)
Definition first_location (parsed : gmap pystr (list pystr)) (k : pystr) : pystr :=
  match parsed !!! k with
  | [] => []
  | x :: _ => if nonempty x then norm_location x else []
  end.

(** [';'.join(dedupe_preserve_order(parsed[k]))] *)
Definition multi_str (parsed : gmap pystr (list pystr)) (k : pystr) : pystr :=
  join (str_of ";") (dedupe_preserve_order (parsed !!! k)).

Definition raw_parts (source target comp_str imp_str market_str city_str country_str : pystr)
  : list pystr :=
  let raw_parts := [] in
  let raw_parts := append_if (nonempty source) source raw_parts in
  let raw_parts :=
    append_if (nonempty target && bool_decide (target ≠ source)) target raw_parts in
  let raw_parts := append_if (nonempty comp_str) comp_str raw_parts in
  let raw_parts := append_if (nonempty imp_str) imp_str raw_parts in
  let raw_parts := append_if (nonempty market_str) market_str raw_parts in
  let raw_parts := append_if (nonempty city_str) city_str raw_parts in
  append_if (nonempty country_str) country_str raw_parts.

(** The tokens of the detailed label, after the token dedup loop (the
    same loop as [dedupe_preserve_order]). *)
Definition final_parts (source target : pystr) (conns : list cell) : list pystr :=
  let parsed := parse conns in
  dedupe_go ∅
    (raw_parts source target
       (multi_str parsed (str_of "competency"))
       (multi_str parsed (str_of "impact"))
       (multi_str parsed (str_of "target_market"))
       (first_location parsed (str_of "city"))
       (first_location parsed (str_of "country"))).

(** The precedence order of the tokens: the two names, the competencies,
    the impacts, the target markets, the city, the country. *)
Definition token_order (source target : pystr) (conns : list cell) : list pystr :=
  let parsed := parse conns in
  [source; target;
   multi_str parsed (str_of "competency");
   multi_str parsed (str_of "impact");
   multi_str parsed (str_of "target_market");
   first_location parsed (str_of "city");
   first_location parsed (str_of "country")].

(** [', '.join(final_parts)], the label before truncation. *)
Definition label_joined (source target : pystr) (conns : list cell) : pystr :=
  join (str_of ", ") (final_parts source target conns).

(** [label[:LABEL_MAX-1].rstrip(', ').rstrip() + '…'] when too long. *)
Definition truncate (label : pystr) : pystr :=
  if LABEL_MAX <? length label
  then rstrip (rstrip_chars (str_of ", ") (take (LABEL_MAX - 1) label)) ++ [ELLIPSIS]
  else label.

Definition label_detailed (source target : pystr) (conns : list cell) : pystr :=
  truncate (label_joined source target conns).

(** The values of these fields for one item of [combined_edges], as they
    are computed before the [Connections] column is built; [iter] is the
    order in which Python iterates the set of connections.  The record is
    appended to [weighted_edges] only when that column can be built, see
    [emit_edge]. *)
Definition make_edge (iter : gset cell → list cell)
    (key : pystr * pystr) (info : edge_info) : weighted_edge :=
  WeightedEdge key.1 key.2 (weight info)
    (join (str_of ";") (sorted (elements (types info))))
    (label_detailed key.1 key.2 (iter (connections info))).

(** The body of the loop over [combined_edges.items()]: the record appended
    to [weighted_edges], with its [Connections] column, or [None] when the
    script stops with the [TypeError] of that column and appends nothing. *)
Definition emit_edge (iter : gset cell → list cell)
    (key : pystr * pystr) (info : edge_info) : option (weighted_edge * pystr) :=
  (λ col, (make_edge iter key info, col)) <$> connections_column (connections info).
End label.

(** A row with source and target exchanged. *)
Definition swap (r : row) : row :=
  Row (Target r) (Source r) (Type_ r) (Connection_full r).

(** The sum of the weights of all the edges. *)
Definition total_weight (m : gmap (pystr * pystr) edge_info) : nat :=
  map_fold (λ _ info acc, weight info + acc) 0 m.

(** ['is_competency': 1 if 'competency' in info['types'] else 0], and the
    like for the other types. *)
Definition is_type (conn_type : pystr) (info : edge_info) : bool :=
  bool_decide (conn_type ∈ types info).

End Csv.

(** ** The Airtable pipeline, [airtable_etl.py] *)

Module Etl.

(** The value of a field of an Airtable record: a string, or an array whose
    items are strings or null. *)
Inductive field_value := FStr (s : pystr) | FList (items : list (option pystr)).

(** [record['fields']]: the [Startup] text field, when present, and the
    other fields by name. *)
Record record := Record_ {
  Startup : option pystr;
  fields : gmap pystr field_value
}.

(** [str(v).strip()] for the items [v] that pass [if v]. *)
Definition clean_item (v : option pystr) : option pystr :=
  match v with
  | Some (c :: s) => Some (strip (c :: s))
  | _ => None
  end.

Definition clean_array_field (field_value : field_value) : list pystr :=
  match field_value with
  | FStr [] => []
  | FList [] => []
  | FList items => omap clean_item items
  | FStr s => [strip s]
  end.

Definition normalize_location (location_str : pystr) : pystr :=
  if nonempty location_str then replace_dashes location_str else [].

(** [connection_index]: a [defaultdict(list)] keyed by (type, value), in
    insertion order. *)
Abbreviation index := (list (pystr * pystr * list pystr)).

(** [connection_index[key].append(startup_name)] *)
Fixpoint index_append (key : pystr * pystr) (startup_name : pystr) (idx : index) : index :=
  match idx with
  | [] => [(key, [startup_name])]
  | (k, l) :: rest =>
      if decide (k = key) then (k, l ++ [startup_name]) :: rest
      else (k, l) :: index_append key startup_name rest
  end.

(** [for v in values: connection_index[(conn_type, v)].append(startup_name)] *)
Definition index_values (conn_type : pystr) (values : list pystr)
    (startup_name : pystr) (idx : index) : index :=
  fold_left (λ idx v, index_append (conn_type, v) startup_name idx) values idx.

Definition COMPETENCY : pystr := str_of "competency".
Definition TECHNICAL_COMPETENCY : pystr := str_of "technical_competency".
Definition IMPACT : pystr := str_of "impact".
Definition COUNTRY : pystr := str_of "country".
Definition CITY : pystr := str_of "city".
Definition REGION : pystr := str_of "region".
Definition COHORT : pystr := str_of "cohort".

(** The category extractors: connection type and field name, in the order
    the record loop indexes them. *)
Definition extractors : list (pystr * pystr) :=
  [(COMPETENCY, str_of "Core Competencies");
   (TECHNICAL_COMPETENCY, str_of "Technical Competencies (Test)");
   (IMPACT, str_of "Impact");
   (COUNTRY, str_of "Location (Country)");
   (CITY, str_of "Location (City)");
   (REGION, str_of "Region");
   (COHORT, str_of "Cohort")].

(** [clean_array_field(fields.get(name, []))] *)
Definition get_clean (r : record) (name : pystr) : list pystr :=
  clean_array_field (default (FList []) (fields r !! name)).

(** The body of the loop over the records, on the index. *)
Definition index_record (idx : index) (r : record) : index :=
  let startup_name := strip (default [] (Startup r)) in
  if nonempty startup_name
  then fold_left (λ idx e, index_values e.1 (get_clean r e.2) startup_name idx)
         extractors idx
  else idx.

Definition build_index (records : list record) : index :=
  fold_left index_record records [].

(** A value of [combined_edges]. *)
Record edge_info := EdgeInfo {
  weight : nat;
  types : gset pystr;
  connections : gset pystr;
  competencies : gset pystr;
  technical_competencies : gset pystr;
  impacts : gset pystr;
  cities : gset pystr;
  countries : gset pystr;
  regions : gset pystr;
  cohorts : gset pystr
}.

Definition empty_info : edge_info := EdgeInfo 0 ∅ ∅ ∅ ∅ ∅ ∅ ∅ ∅ ∅.

(** The [if conn_type == ...: ... elif ...] chain. *)
Definition track (conn_type conn_value : pystr) (i : edge_info) : edge_info :=
  let 'EdgeInfo w ty cn co te im ci cu re ch := i in
  if decide (conn_type = COMPETENCY)
  then EdgeInfo w ty cn ({[conn_value]} ∪ co) te im ci cu re ch
  else if decide (conn_type = TECHNICAL_COMPETENCY)
  then EdgeInfo w ty cn co ({[conn_value]} ∪ te) im ci cu re ch
  else if decide (conn_type = IMPACT)
  then EdgeInfo w ty cn co te ({[conn_value]} ∪ im) ci cu re ch
  else if decide (conn_type = CITY)
  then EdgeInfo w ty cn co te im ({[conn_value]} ∪ ci) cu re ch
  else if decide (conn_type = COUNTRY)
  then EdgeInfo w ty cn co te im ci ({[conn_value]} ∪ cu) re ch
  else if decide (conn_type = REGION)
  then EdgeInfo w ty cn co te im ci cu ({[conn_value]} ∪ re) ch
  else if decide (conn_type = COHORT)
  then EdgeInfo w ty cn co te im ci cu re ({[conn_value]} ∪ ch)
  else i.

(** A sharing event: the pair, the connection type and its value. *)
Record event := Event {
  ev_source : pystr;
  ev_target : pystr;
  ev_type : pystr;
  ev_value : pystr
}.

(** What the body of the loop over the pairs does to [edge_info]. *)
Definition update_info (ev : event) (info : edge_info) : edge_info :=
  let 'EdgeInfo w ty cn co te im ci cu re ch := info in
  track (ev_type ev) (ev_value ev)
    (EdgeInfo (w + 1) ({[ev_type ev]} ∪ ty)
       ({[ev_type ev ++ str_of ": " ++ ev_value ev]} ∪ cn)
       co te im ci cu re ch).

(** The values of one category after an event: the value of the event is
    added when the event is of that type. *)
Definition add_value (ev : event) (conn_type : pystr) (s : gset pystr) : gset pystr :=
  if decide (ev_type ev = conn_type) then {[ev_value ev]} ∪ s else s.

(** The body of the loop over the pairs. *)
Definition add_event (m : gmap (pystr * pystr) edge_info) (ev : event)
  : gmap (pystr * pystr) edge_info :=
  let edge_key := sorted_pair (ev_source ev) (ev_target ev) in
  <[edge_key := update_info ev (default empty_info (m !! edge_key))]> m.

(** The key under which a sharing event is folded in. *)
Definition event_key (ev : event) : pystr * pystr :=
  sorted_pair (ev_source ev) (ev_target ev).

(** [combined_edges[k]['weight']], 0 for a key that has no entry yet. *)
Definition weight_of (m : gmap (pystr * pystr) edge_info) (k : pystr * pystr) : nat :=
  weight (default empty_info (m !! k)).

(** The invariant of the entries of [combined_edges]: the key is sorted
    and the weight bounds the number of types, which is at least 1. *)
Definition edge_ok (k : pystr * pystr) (info : edge_info) : Prop :=
  str_le k.1 k.2 ∧ 1 ≤ size (types info) ≤ weight info.

(** The pairs one index entry gives rise to:
    [combinations(sorted(startup_list), 2)], unless the list is shorter
    than 2. *)
Definition pair_events (entry : pystr * pystr * list pystr) : list event :=
  let '((conn_type, conn_value), startup_list) := entry in
  if length startup_list <? 2 then []
  else (λ p, Event p.1 p.2 conn_type conn_value) <$> combinations2 (sorted startup_list).

(** The loop over [connection_index.items()]. *)
Definition combine (idx : index) : gmap (pystr * pystr) edge_info :=
  fold_left (λ m entry, fold_left add_event (pair_events entry) m) idx ∅.

Definition combined_edges (records : list record) : gmap (pystr * pystr) edge_info :=
  combine (build_index records).

(** All the sharing events of an index, in the order they are folded in. *)
Definition sharing_events (idx : index) : list event :=
  idx ≫= pair_events.

Definition nonempty_set (s : gset pystr) : bool := negb (bool_decide (s = ∅)).

(** ['; '.join(sorted(s))] *)
Definition joined (s : gset pystr) : pystr :=
  join (str_of "; ") (sorted (elements s)).
(** ['; '.join([normalize_location(c) for c in sorted(s)])] *)
Definition joined_locations (s : gset pystr) : pystr :=
  join (str_of "; ") (normalize_location <$> sorted (elements s)).

Definition label_parts (info : edge_info) : list pystr :=
  let label_parts := [] in
  let label_parts :=
    append_if (nonempty_set (competencies info)) (joined (competencies info)) label_parts in
  let label_parts :=
    append_if (nonempty_set (technical_competencies info))
      (joined (technical_competencies info)) label_parts in
  let label_parts :=
    append_if (nonempty_set (impacts info)) (joined (impacts info)) label_parts in
  let label_parts :=
    append_if (nonempty_set (cities info)) (joined_locations (cities info)) label_parts in
  let label_parts :=
    append_if (nonempty_set (countries info)) (joined_locations (countries info)) label_parts in
  let label_parts :=
    append_if (nonempty_set (regions info)) (joined (regions info)) label_parts in
  append_if (nonempty_set (cohorts info)) (joined (cohorts info)) label_parts.

(** The tokens of the categories that have a value, in the order given. *)
Definition present (l : list (gset pystr * pystr)) : list pystr :=
  snd <$> filter (λ p, p.1 ≠ ∅) l.

(** The order in which [label_parts] is filled: competencies, technical
    competencies, impacts, cities, countries, regions, cohorts. *)
Definition code_order (info : edge_info) : list (gset pystr * pystr) :=
  [(competencies info, joined (competencies info));
   (technical_competencies info, joined (technical_competencies info));
   (impacts info, joined (impacts info));
   (cities info, joined_locations (cities info));
   (countries info, joined_locations (countries info));
   (regions info, joined (regions info));
   (cohorts info, joined (cohorts info))].

(** The order of the specification: the competency-like categories, the
    impact, the region and cohort categories, then city, then country. *)
Definition spec_order (info : edge_info) : list (gset pystr * pystr) :=
  [(competencies info, joined (competencies info));
   (technical_competencies info, joined (technical_competencies info));
   (impacts info, joined (impacts info));
   (regions info, joined (regions info));
   (cohorts info, joined (cohorts info));
   (cities info, joined_locations (cities info));
   (countries info, joined_locations (countries info))].

(** [', '.join(label_parts)], the label before truncation. *)
Definition label_joined (info : edge_info) : pystr :=
  join (str_of ", ") (label_parts info).

Definition MAX_LABEL : nat := 120.

(** [label[:MAX_LABEL-1].rstrip(', ') + '…'] when too long. *)
Definition truncate (label : pystr) : pystr :=
  if MAX_LABEL <? length label
  then rstrip_chars (str_of ", ") (take (MAX_LABEL - 1) label) ++ [ELLIPSIS]
  else label.

Definition label_detailed (info : edge_info) : pystr :=
  truncate (label_joined info).

(** The fields of an edge record the properties are about; the value lists
    are [list(s)] of the sets, in the order Python iterates them. *)
Record edge := Edge {
  source : pystr;
  target : pystr;
  out_weight : nat;
  out_label_detailed : pystr;
  out_types : list pystr;
  out_competencies : list pystr;
  out_technical_competencies : list pystr;
  out_impacts : list pystr;
  out_cities : list pystr;
  out_countries : list pystr;
  out_regions : list pystr;
  out_cohorts : list pystr
}.

Definition make_edge (iter : gset pystr → list pystr)
    (key : pystr * pystr) (info : edge_info) : edge :=
  Edge key.1 key.2 (weight info) (label_detailed info)
    (iter (types info)) (iter (competencies info))
    (iter (technical_competencies info)) (iter (impacts info))
    (iter (cities info)) (iter (countries info))
    (iter (regions info)) (iter (cohorts info)).

(** The list of values an edge record exports for a connection type. *)
Definition exported_values (conn_type : pystr) (e : edge) : list pystr :=
  if decide (conn_type = COMPETENCY) then out_competencies e
  else if decide (conn_type = TECHNICAL_COMPETENCY) then out_technical_competencies e
  else if decide (conn_type = IMPACT) then out_impacts e
  else if decide (conn_type = CITY) then out_cities e
  else if decide (conn_type = COUNTRY) then out_countries e
  else if decide (conn_type = REGION) then out_regions e
  else if decide (conn_type = COHORT) then out_cohorts e
  else [].

(** [fields.get('Startup', '').strip()] *)
Definition startup_name_of (r : record) : pystr := strip (default [] (Startup r)).

(** A node, without its [logo_url] (the attachments of the [Logo] field are
    not values of [field_value]). *)
Record node := Node {
  node_id : pystr;
  node_label : pystr;
  description : field_value;
  website : field_value;
  one_liner : field_value;
  location_hq : list pystr
}.

Definition make_node (r : record) : node :=
  Node (startup_name_of r) (startup_name_of r)
    (default (FStr []) (fields r !! str_of "Description"))
    (default (FStr []) (fields r !! str_of "Website"))
    (default (FStr []) (fields r !! str_of "One liner"))
    (get_clean r (str_of "Location (HQ)")).

(** The body of the loop over the records, on the nodes. *)
Definition add_node (nodes : list node) (r : record) : list node :=
  if nonempty (startup_name_of r) then nodes ++ [make_node r] else nodes.

Definition build_nodes (records : list record) : list node :=
  fold_left add_node records [].

(** The startup [name] is in the list of the index under [key]. *)
Definition indexed (idx : index) (key : pystr * pystr) (name : pystr) : Prop :=
  ∃ l, (key, l) ∈ idx ∧ name ∈ l.

(** The connection types of the extractors. *)
Definition conn_types : list pystr := fst <$> extractors.

(** The set of values an edge keeps for a connection type. *)
Definition values_of (conn_type : pystr) (info : edge_info) : gset pystr :=
  if decide (conn_type = COMPETENCY) then competencies info
  else if decide (conn_type = TECHNICAL_COMPETENCY) then technical_competencies info
  else if decide (conn_type = IMPACT) then impacts info
  else if decide (conn_type = CITY) then cities info
  else if decide (conn_type = COUNTRY) then countries info
  else if decide (conn_type = REGION) then regions info
  else if decide (conn_type = COHORT) then cohorts info
  else ∅.

(** ['is_competency': 'competency' in info['types']], and the like for the
    other types. *)
Definition is_type (conn_type : pystr) (info : edge_info) : bool :=
  bool_decide (conn_type ∈ types info).

(** The sum of the weights of all the edges. *)
Definition total_weight (m : gmap (pystr * pystr) edge_info) : nat :=
  map_fold (λ _ info acc, weight info + acc) 0 m.

(** What [process_records] returns, with the edges still keyed by pair. *)
Definition process_records (records : list record)
  : list node * gmap (pystr * pystr) edge_info :=
  (build_nodes records, combined_edges records).

End Etl.

(** ** Fetching and the main program, [airtable_etl.py] *)

Module Fetch.

(** The answer to one request: a failure ([RequestException]), or the
    decoded page with its [records] and [offset] keys, when present. *)
Inductive response :=
  | Failed
  | Page (records : option (list Etl.record)) (offset : option pystr).

(** The loop of [fetch_all_records] over the answers the requests get, in
    order: what is returned ([None] when the answers run out before the loop
    ends) and the [offset] parameter of each request made. *)
Fixpoint fetch_loop (responses : list response) (all_records : list Etl.record)
    (offset : option pystr) : option (list Etl.record) * list (option pystr) :=
  match responses with
  | [] => (None, [offset])
  | Failed :: _ => (Some [], [offset])
  | Page records next :: rest =>
      let all_records := all_records ++ default [] records in
      if truthy next
      then let '(result, sent) := fetch_loop rest all_records next in
           (result, offset :: sent)
      else (Some all_records, [offset])
  end.

(** A run of pages that each name a next page: their answers, the records
    they hold and the offsets they give. *)
Definition pages (mid : list (option (list Etl.record) * pystr)) : list response :=
  map (λ p, Page p.1 (Some p.2)) mid.
Definition records_of (mid : list (option (list Etl.record) * pystr))
  : list Etl.record :=
  concat (map (λ p, default [] p.1) mid).
Definition offsets_of (mid : list (option (list Etl.record) * pystr))
  : list (option pystr) :=
  map (λ p, Some p.2) mid.

Definition fetch_all_records (responses : list response)
  : option (list Etl.record) * list (option pystr) :=
  fetch_loop responses [] None.

(** The environment variables [main] reads. *)
Record env := Env {
  AIRTABLE_TOKEN : option pystr;
  AIRTABLE_BASE_ID : option pystr;
  AIRTABLE_TABLE_NAME : option pystr;
  AIRTABLE_TABLE_ID_var : option pystr
}.

(** [os.getenv('AIRTABLE_TABLE_NAME') or os.getenv('AIRTABLE_TABLE_ID')] *)
Definition AIRTABLE_TABLE_ID (e : env) : option pystr :=
  if truthy (AIRTABLE_TABLE_NAME e) then AIRTABLE_TABLE_NAME e
  else AIRTABLE_TABLE_ID_var e.

(** What [export_json] writes: the nodes, the edges and the two counts of
    the metadata. *)
Record export := Export {
  nodes : list Etl.node;
  edges : gmap (pystr * pystr) Etl.edge_info;
  total_nodes : nat;
  total_edges : nat
}.

Definition export_json (nodes : list Etl.node)
    (edges : gmap (pystr * pystr) Etl.edge_info) : export :=
  Export nodes edges (length nodes) (size edges).

(** How [main] ends. *)
Inductive outcome :=
  | MissingEnv
  | NoRecords
  | Exported (data : export)
  | Waiting.

Definition main (e : env) (responses : list response) : outcome :=
  if truthy (AIRTABLE_TOKEN e) && truthy (AIRTABLE_BASE_ID e)
     && truthy (AIRTABLE_TABLE_ID e)
  then match (fetch_all_records responses).1 with
       | None => Waiting
       | Some [] => NoRecords
       | Some records =>
           let '(nodes, edges) := Etl.process_records records in
           Exported (export_json nodes edges)
       end
  else MissingEnv.

End Fetch.

(** ** Concrete inputs *)

Module Ex.
Definition A : pystr := str_of "A".
Definition B : pystr := str_of "B".
Definition C : pystr := str_of "C".
Definition D : pystr := str_of "D".

(** Three rows for the pair (A, B), two of them the same fact. *)
Definition rows : list Csv.row :=
  [Csv.Row A B (str_of "competency") (Csv.CellStr (str_of "competency: ML"));
   Csv.Row B A (str_of "competency") (Csv.CellStr (str_of "competency: ML"));
   Csv.Row B A (str_of "city") (Csv.CellStr (str_of "city: DE - Berlin"));
   Csv.Row B C (str_of "city") (Csv.CellStr (str_of "city: DE - Berlin"))].

(** An index in which A and B share two values, one listed for four
    startups. *)
Definition idx : Etl.index :=
  [((Etl.COMPETENCY, str_of "ML"), [B; A; D; C]);
   ((Etl.CITY, str_of "DE - Berlin"), [A; B]);
   ((Etl.REGION, str_of "EU"), [A])].

(** Two startups with two competencies and a city in common. *)
Definition records : list Etl.record :=
  [Etl.Record_ (Some A)
     (<[str_of "Core Competencies" := Etl.FList [Some (str_of "ML"); Some (str_of "NLP")]]>
        {[str_of "Location (City)" := Etl.FStr (str_of "DE - Berlin")]});
   Etl.Record_ (Some B)
     (<[str_of "Core Competencies" := Etl.FList [Some (str_of "NLP"); Some (str_of "ML")]]>
        {[str_of "Location (City)" := Etl.FList [Some (str_of " DE - Berlin ")]]})].



(** Three records, two of them of the same name, with one impact. *)
Definition dup3_records : list Etl.record :=
  [Etl.Record_ (Some A) {[str_of "Impact" := Etl.FStr (str_of "Health")]};
   Etl.Record_ (Some A) {[str_of "Impact" := Etl.FStr (str_of "Health")]};
   Etl.Record_ (Some B) {[str_of "Impact" := Etl.FStr (str_of "Health")]}].

(** A long competency whose 119th character is the ellipsis, and one
    whose 119th character is a tab. *)
Definition with_marker : pystr :=
  replicate 118 120%N ++ [ELLIPSIS] ++ str_of "yy".
Definition with_tab : pystr :=
  replicate 118 120%N ++ [9%N] ++ str_of "yy".

Definition sharing (competency : pystr) : list Etl.record :=
  [Etl.Record_ (Some A) {[str_of "Core Competencies" := Etl.FList [Some competency]]};
   Etl.Record_ (Some B) {[str_of "Core Competencies" := Etl.FList [Some competency]]}].

(** A row whose label has the ellipsis as 119th character. *)
Definition marker_rows : list Csv.row :=
  [Csv.Row A B (str_of "competency")
     (Csv.CellStr (str_of "competency: " ++ replicate 112 120%N
                     ++ [ELLIPSIS] ++ str_of "yy"))].

(** A row whose label has a comma and a tab as 118th and 119th
    characters. *)
Definition comma_rows : list Csv.row :=
  [Csv.Row A B (str_of "competency")
     (Csv.CellStr (str_of "competency: " ++ replicate 111 120%N
                     ++ [COMMA; 9%N] ++ str_of "yy"))].

(** Two startups that list one competency in two spellings. *)
Definition case_records : list Etl.record :=
  [Etl.Record_ (Some A)
     {[str_of "Core Competencies" := Etl.FList [Some (str_of "ML"); Some (str_of "ml")]]};
   Etl.Record_ (Some B)
     {[str_of "Core Competencies" := Etl.FList [Some (str_of "ml"); Some (str_of "ML")]]}].

(** Two startups of one city and one region. *)
Definition located_records : list Etl.record :=
  [Etl.Record_ (Some A)
     (<[str_of "Location (City)" := Etl.FStr (str_of "DE - Berlin")]>
        {[str_of "Region" := Etl.FStr (str_of "EU")]});
   Etl.Record_ (Some B)
     (<[str_of "Location (City)" := Etl.FStr (str_of "DE - Berlin")]>
        {[str_of "Region" := Etl.FStr (str_of "EU")]})].

(** Two rows for one pair, with two competencies. *)
Definition two_competency_rows : list Csv.row :=
  [Csv.Row A B (str_of "competency") (Csv.CellStr (str_of "competency: ML"));
   Csv.Row A B (str_of "competency") (Csv.CellStr (str_of "competency: NLP"))].

(** Two startups whose competency field holds a blank string. *)
Definition blank_records : list Etl.record :=
  [Etl.Record_ (Some A) {[str_of "Core Competencies" := Etl.FList [Some (str_of "  ")]]};
   Etl.Record_ (Some B) {[str_of "Core Competencies" := Etl.FStr (str_of " ")]}].

(** An edge with one competency. *)
Definition ml_info : Etl.edge_info :=
  Etl.EdgeInfo 1 {[Etl.COMPETENCY]} {[str_of "competency: ML"]}
    {[str_of "ML"]} ∅ ∅ ∅ ∅ ∅ ∅.

(** Two pages with an offset, of one record each. *)
Definition two_pages : list (option (list Etl.record) * pystr) :=
  [(Some [Etl.Record_ (Some A) ∅], str_of "itr1"); (Some [Etl.Record_ (Some B) ∅], str_of "itr2")].

(** An environment with the three variables set. *)
Definition env_ok : Fetch.env :=
  Fetch.Env (Some (str_of "pat")) (Some (str_of "app")) None (Some (str_of "tbl")).

(** Connections of an unknown category and without separator. *)
Definition odd_conns : list Csv.cell :=
  [Csv.CellStr (str_of "foo: bar"); Csv.CellStr (str_of "no separator")].

(** An edge with a city and a region. *)
Definition located_info : Etl.edge_info :=
  Etl.EdgeInfo 2 {[Etl.CITY; Etl.REGION]} {[str_of "city: DE - Berlin"; str_of "region: EU"]}
    ∅ ∅ ∅ {[str_of "DE - Berlin"]} ∅ {[str_of "EU"]} ∅.

(** An edge with a competency and a connection of an unknown category. *)
Definition other_info : Csv.edge_info :=
  Csv.EdgeInfo 2 {[str_of "competency"; str_of "foo"]}
    {[Csv.CellStr (str_of "competency: ML"); Csv.CellStr (str_of "foo: bar")]}.

(** An edge with one connection that is no string. *)
Definition nan_info : Csv.edge_info :=
  Csv.EdgeInfo 1 {[str_of "competency"]} {[Csv.CellOther (str_of "nan")]}.
End Ex.

(** * Properties *)

(** ** The string primitives on examples *)

Example split_ex : split (str_of "  a  bc d ") = [str_of "a"; str_of "bc"; str_of "d"].
Proof. reflexivity. Qed.
Example replace_ex :
  replace (str_of " - ") (str_of "-") (str_of "DE - Berlin - X") = str_of "DE-Berlin-X".
Proof. reflexivity. Qed.
Example split_once_ex :
  split_once (str_of ": ") (str_of "city: DE: x") = Some (str_of "city", str_of "DE: x").
Proof. reflexivity. Qed.
Example sorted_ex :
  sorted [str_of "b"; str_of "a"; str_of "B"; str_of "ab"]
  = [str_of "B"; str_of "a"; str_of "ab"; str_of "b"].
Proof. reflexivity. Qed.
Example rstrip_ex : rstrip_chars (str_of ", ") (str_of "ab, c, , ") = str_of "ab, c".
Proof. reflexivity. Qed.

(** ** The pipelines on examples *)

(** Startups A and B with the competencies ML and NLP and one city: one
    edge of weight 3 with two types. *)
Example etl_scenario :
  (λ i, (Etl.weight i, sorted (elements (Etl.types i)), Etl.label_detailed i))
    <$> Etl.combined_edges Ex.records !! (Ex.A, Ex.B)
  = Some (3, [str_of "city"; str_of "competency"], str_of "ML; NLP, DE-Berlin").
Proof. vm_compute. reflexivity. Qed.

Example etl_index_scenario :
  Etl.build_index Ex.records
  = [((Etl.COMPETENCY, str_of "ML"), [Ex.A; Ex.B]);
     ((Etl.COMPETENCY, str_of "NLP"), [Ex.A; Ex.B]);
     ((Etl.CITY, str_of "DE - Berlin"), [Ex.A; Ex.B])].
Proof. vm_compute. reflexivity. Qed.

Example csv_scenario :
  (λ i, let e := Csv.make_edge ascii_lower elements (Ex.A, Ex.B) i in
        (Csv.out_Weight e, Csv.out_Types e, Csv.out_LabelDetailed e))
    <$> Csv.combined_edges Ex.rows !! (Ex.A, Ex.B)
  = Some (3, str_of "city;competency", str_of "A, B, ML, DE-Berlin").
Proof. vm_compute. reflexivity. Qed.

(** ** The order on strings *)

Lemma str_ltb_irrefl a : str_ltb a a = false.
Proof.
  induction a as [|x a IH]; simpl; [done|].
  by rewrite N.ltb_irrefl.
Qed.

Lemma str_ltb_asym a b : str_ltb a b = true → str_ltb b a = false.
Proof.
  revert b. induction a as [|x a IH]; intros [|y b]; simpl; try done.
  destruct (N.ltb_spec x y) as [Hxy|Hxy], (N.ltb_spec y x) as [Hyx|Hyx];
    try done; try lia.
  apply IH.
Qed.

Lemma str_ltb_trichotomy a b : str_ltb a b = false → str_ltb b a = false → a = b.
Proof.
  revert b. induction a as [|x a IH]; intros [|y b]; simpl; try done.
  destruct (N.ltb_spec x y) as [Hxy|Hxy], (N.ltb_spec y x) as [Hyx|Hyx];
    try done; try lia.
  intros H1 H2. f_equal; [lia|]. by apply IH.
Qed.

Lemma str_ltb_trans a b c :
  str_ltb a b = true → str_ltb b c = true → str_ltb a c = true.
Proof.
  revert b c. induction a as [|x a IH]; intros [|y b] [|z c]; simpl; try done.
  destruct (N.ltb_spec x y), (N.ltb_spec y z), (N.ltb_spec x z),
    (N.ltb_spec y x), (N.ltb_spec z y), (N.ltb_spec z x);
    try done; try lia.
  apply IH.
Qed.

Global Instance str_le_total : Total str_le.
Proof.
  intros a b. unfold str_le.
  destruct (str_ltb b a) eqn:Hba; [|by left].
  right. by apply str_ltb_asym.
Qed.

Global Instance str_le_antisymm : AntiSymm (=) str_le.
Proof. intros a b Hab Hba. by apply str_ltb_trichotomy. Qed.

Global Instance str_le_trans : Transitive str_le.
Proof.
  intros a b c Hab Hbc. unfold str_le in *.
  destruct (str_ltb c a) eqn:Hca; [|done].
  destruct (str_ltb b c) eqn:Hbc'.
  - by rewrite (str_ltb_trans _ _ _ Hbc' Hca) in Hab.
  - assert (b = c) as -> by by apply str_ltb_trichotomy.
    congruence.
Qed.

Global Instance str_le_refl : Reflexive str_le.
Proof. intros a. apply str_ltb_irrefl. Qed.

Lemma sorted_pair_le a b : str_le (sorted_pair a b).1 (sorted_pair a b).2.
Proof.
  unfold sorted_pair. destruct (str_ltb b a) eqn:Hba; simpl.
  - by apply str_ltb_asym.
  - done.
Qed.

Lemma sorted_pair_id a b : str_le a b → sorted_pair a b = (a, b).
Proof. unfold sorted_pair, str_le. by intros ->. Qed.

Lemma sorted_pair_diag a b : (sorted_pair a b).1 = (sorted_pair a b).2 ↔ a = b.
Proof. unfold sorted_pair. destruct (str_ltb b a); simpl; naive_solver. Qed.

Lemma sorted_Permutation l : sorted l ≡ₚ l.
Proof. apply merge_sort_Permutation. Qed.

Lemma sorted_StronglySorted l : StronglySorted str_le (sorted l).
Proof. apply StronglySorted_merge_sort; apply _. Qed.

(** [sorted] does not depend on the order of its argument. *)
Lemma sorted_perm_eq l1 l2 : l1 ≡ₚ l2 → sorted l1 = sorted l2.
Proof.
  intros Hp. apply (StronglySorted_unique str_le); try apply sorted_StronglySorted.
  by rewrite !sorted_Permutation.
Qed.

(** ** Stripping *)

Lemma rstrip_by_prefix p s : rstrip_by p s `prefix_of` s.
Proof.
  induction s as [|c s IH]; simpl; [done|].
  destruct (rstrip_by p s) as [|d r] eqn:Hr.
  - destruct (p c); [apply prefix_nil|]. apply prefix_cons, prefix_nil.
  - by apply prefix_cons.
Qed.

Lemma rstrip_by_length p s : length (rstrip_by p s) ≤ length s.
Proof. apply prefix_length, rstrip_by_prefix. Qed.

Lemma rstrip_by_last p s c : last (rstrip_by p s) = Some c → p c = false.
Proof.
  induction s as [|d s IH]; simpl; [done|].
  destruct (rstrip_by p s) as [|e r] eqn:Hr.
  - destruct (p d) eqn:Hd; simpl; [done|]. by intros [= <-].
  - rewrite last_cons. destruct (last (e :: r)) eqn:Hl; [|by apply last_None in Hl].
    intros [= <-]. by apply IH.
Qed.

(** ** Aggregation: weights *)

Lemma csv_add_row_ne m r k :
  Csv.row_key r ≠ k → Csv.add_row m r !! k = m !! k.
Proof. intros Hk. unfold Csv.add_row. by rewrite lookup_insert_ne. Qed.

Lemma csv_add_row_eq m r :
  Csv.add_row m r !! Csv.row_key r
  = Some (Csv.EdgeInfo (Csv.weight_of m (Csv.row_key r) + 1)
            ({[Csv.Type_ r]} ∪ Csv.types (default Csv.empty_info (m !! Csv.row_key r)))
            ({[Csv.Connection_full r]}
               ∪ Csv.connections (default Csv.empty_info (m !! Csv.row_key r)))).
Proof. unfold Csv.add_row. by rewrite lookup_insert_eq. Qed.

Lemma csv_weight_of_add_row m r k :
  Csv.weight_of (Csv.add_row m r) k
  = Csv.weight_of m k + (if decide (Csv.row_key r = k) then 1 else 0).
Proof.
  case_decide as Hk.
  - subst k. unfold Csv.weight_of at 1. by rewrite csv_add_row_eq.
  - unfold Csv.weight_of. rewrite csv_add_row_ne by done. lia.
Qed.

Lemma csv_weight_of_fold rows m k :
  Csv.weight_of (fold_left Csv.add_row rows m) k
  = Csv.weight_of m k + length (filter (λ r, Csv.row_key r = k) rows).
Proof.
  revert m. induction rows as [|r rows IH]; intros m; simpl; [lia|].
  rewrite IH, csv_weight_of_add_row, filter_cons.
  case_decide; simpl; lia.
Qed.

Lemma etl_track_weight ct cv i : Etl.weight (Etl.track ct cv i) = Etl.weight i.
Proof. destruct i. unfold Etl.track. repeat case_decide; done. Qed.

Lemma etl_track_types ct cv i : Etl.types (Etl.track ct cv i) = Etl.types i.
Proof. destruct i. unfold Etl.track. repeat case_decide; done. Qed.

Lemma etl_add_event_ne m ev k :
  Etl.event_key ev ≠ k → Etl.add_event m ev !! k = m !! k.
Proof. intros Hk. unfold Etl.add_event. by rewrite lookup_insert_ne. Qed.

Lemma etl_add_event_eq m ev :
  ∃ info, Etl.add_event m ev !! Etl.event_key ev = Some info
    ∧ Etl.weight info = Etl.weight_of m (Etl.event_key ev) + 1
    ∧ Etl.types info
      = {[Etl.ev_type ev]} ∪ Etl.types (default Etl.empty_info (m !! Etl.event_key ev)).
Proof.
  unfold Etl.add_event, Etl.weight_of. fold (Etl.event_key ev).
  eexists. rewrite lookup_insert_eq. split; [done|].
  unfold Etl.update_info. destruct (default Etl.empty_info _).
  by rewrite etl_track_weight, etl_track_types.
Qed.

Lemma etl_weight_of_add_event m ev k :
  Etl.weight_of (Etl.add_event m ev) k
  = Etl.weight_of m k + (if decide (Etl.event_key ev = k) then 1 else 0).
Proof.
  case_decide as Hk.
  - subst k. destruct (etl_add_event_eq m ev) as (info & Hl & Hw & _).
    unfold Etl.weight_of at 1. by rewrite Hl.
  - unfold Etl.weight_of. rewrite etl_add_event_ne by done. lia.
Qed.

Lemma etl_weight_of_fold evs m k :
  Etl.weight_of (fold_left Etl.add_event evs m) k
  = Etl.weight_of m k + length (filter (λ ev, Etl.event_key ev = k) evs).
Proof.
  revert m. induction evs as [|ev evs IH]; intros m; simpl; [lia|].
  rewrite IH, etl_weight_of_add_event, filter_cons.
  case_decide; simpl; lia.
Qed.

(** The nested loops fold the sharing events in, one after the other. *)
Lemma etl_combine_events idx :
  Etl.combine idx = fold_left Etl.add_event (Etl.sharing_events idx) ∅.
Proof.
  unfold Etl.combine, Etl.sharing_events. generalize (∅ : gmap (pystr * pystr) Etl.edge_info).
  induction idx as [|entry idx IH]; intros m; simpl; [done|].
  by rewrite fold_left_app, IH.
Qed.

(** ** Aggregation: which edges exist *)


Lemma csv_fold_is_Some rows m k :
  is_Some (fold_left Csv.add_row rows m !! k)
  ↔ is_Some (m !! k) ∨ ∃ r, r ∈ rows ∧ Csv.row_key r = k.
Proof.
  revert m. induction rows as [|r rows IH]; intros m; simpl.
  - split; [by left|]. intros [?|(r & Hr & _)]; [done|]. by apply elem_of_nil in Hr.
  - rewrite IH. split.
    + intros [Hs|(r' & Hr' & Hk)].
      * destruct (decide (Csv.row_key r = k)) as [Heq|Hne].
        -- right. exists r. split; [left|done].
        -- left. by rewrite csv_add_row_ne in Hs.
      * right. exists r'. split; [by right|done].
    + intros [Hs|(r' & Hr' & Hk)].
      * left. destruct (decide (Csv.row_key r = k)) as [<-|Hne].
        -- by rewrite csv_add_row_eq.
        -- by rewrite csv_add_row_ne.
      * apply elem_of_cons in Hr' as [->|Hr'].
        -- left. subst k. by rewrite csv_add_row_eq.
        -- right. by exists r'.
Qed.

Lemma etl_fold_is_Some evs m k :
  is_Some (fold_left Etl.add_event evs m !! k)
  ↔ is_Some (m !! k) ∨ ∃ ev, ev ∈ evs ∧ Etl.event_key ev = k.
Proof.
  revert m. induction evs as [|ev evs IH]; intros m; simpl.
  - split; [by left|]. intros [?|(r & Hr & _)]; [done|]. by apply elem_of_nil in Hr.
  - rewrite IH. split.
    + intros [Hs|(ev' & Hev' & Hk)].
      * destruct (decide (Etl.event_key ev = k)) as [Heq|Hne].
        -- right. exists ev. split; [left|done].
        -- left. by rewrite etl_add_event_ne in Hs.
      * right. exists ev'. split; [by right|done].
    + intros [Hs|(ev' & Hev' & Hk)].
      * left. destruct (decide (Etl.event_key ev = k)) as [<-|Hne].
        -- destruct (etl_add_event_eq m ev) as (i & -> & _). done.
        -- by rewrite etl_add_event_ne.
      * apply elem_of_cons in Hev' as [->|Hev'].
        -- left. subst k. destruct (etl_add_event_eq m ev) as (i & -> & _). done.
        -- right. by exists ev'.
Qed.

(** An edge exists for a key exactly when some sharing event has the key. *)
Lemma csv_edge_iff_row rows k :
  is_Some (Csv.combined_edges rows !! k) ↔ ∃ r, r ∈ rows ∧ Csv.row_key r = k.
Proof.
  unfold Csv.combined_edges. rewrite csv_fold_is_Some, lookup_empty.
  split; [|by right]. intros [[? [=]]|?]; done.
Qed.

Lemma etl_edge_iff_event idx k :
  is_Some (Etl.combine idx !! k)
  ↔ ∃ ev, ev ∈ Etl.sharing_events idx ∧ Etl.event_key ev = k.
Proof.
  rewrite etl_combine_events, etl_fold_is_Some, lookup_empty.
  split; [|by right]. intros [[? [=]]|?]; done.
Qed.

(** C1: in both pipelines the weight of an aggregated edge is the number of
    sharing events whose pair key is the key of the edge, counted with
    multiplicity; folding one event in adds exactly 1 to the weight of its
    key, whatever was folded in before. *)
Theorem weight_additivity :
  (∀ rows k info,
     Csv.combined_edges rows !! k = Some info →
     Csv.weight info = length (filter (λ r, Csv.row_key r = k) rows))
  ∧ (∀ idx k info,
       Etl.combine idx !! k = Some info →
       Etl.weight info
       = length (filter (λ ev, Etl.event_key ev = k) (Etl.sharing_events idx)))
  ∧ (∀ m r, Csv.weight_of (Csv.add_row m r) (Csv.row_key r)
            = Csv.weight_of m (Csv.row_key r) + 1)
  ∧ (∀ m ev, Etl.weight_of (Etl.add_event m ev) (Etl.event_key ev)
             = Etl.weight_of m (Etl.event_key ev) + 1).
Proof.
  split_and!.
  - intros rows k info Hk.
    pose proof (csv_weight_of_fold rows ∅ k) as Hw.
    unfold Csv.weight_of in Hw. fold (Csv.combined_edges rows) in Hw.
    by rewrite Hk, lookup_empty in Hw.
  - intros idx k info Hk.
    pose proof (etl_weight_of_fold (Etl.sharing_events idx) ∅ k) as Hw.
    rewrite <-etl_combine_events in Hw. unfold Etl.weight_of in Hw.
    by rewrite Hk, lookup_empty in Hw.
  - intros m r. rewrite csv_weight_of_add_row. by rewrite decide_True.
  - intros m ev. rewrite etl_weight_of_add_event. by rewrite decide_True.
Qed.

Lemma weight_additivity_witness :
  (Csv.weight <$> Csv.combined_edges Ex.rows !! (Ex.A, Ex.B) = Some 3
   ∧ length (filter (λ r, Csv.row_key r = (Ex.A, Ex.B)) Ex.rows) = 3)
  ∧ (Etl.weight <$> Etl.combine Ex.idx !! (Ex.A, Ex.B) = Some 2
     ∧ length (filter (λ ev, Etl.event_key ev = (Ex.A, Ex.B))
                 (Etl.sharing_events Ex.idx)) = 2).
Proof.
  destruct weight_additivity as (Hcsv & Hetl & _).
  split.
  - destruct (proj2 (csv_edge_iff_row Ex.rows (Ex.A, Ex.B))) as [info Hk].
    { eexists. split; [left|reflexivity]. }
    rewrite Hk. simpl. rewrite (Hcsv _ _ _ Hk). split; reflexivity.
  - destruct (proj2 (etl_edge_iff_event Ex.idx (Ex.A, Ex.B))) as [info Hk].
    { exists (Etl.Event Ex.A Ex.B Etl.COMPETENCY (str_of "ML")).
      split; [left|reflexivity]. }
    rewrite Hk. simpl. rewrite (Hetl _ _ _ Hk). split; reflexivity.
Defined.

(** ** Aggregation: endpoints and categories *)

Lemma size_add_one (x : pystr) (s : gset pystr) :
  1 ≤ size ({[x]} ∪ s) ≤ size s + 1.
Proof.
  rewrite size_union_alt, size_singleton.
  assert (s ∖ {[x]} ⊆ s) as Hsub.
  { intros y Hy. apply elem_of_difference in Hy. tauto. }
  apply subseteq_size in Hsub. lia.
Qed.

Lemma csv_add_row_ok m r :
  map_Forall Csv.edge_ok m → map_Forall Csv.edge_ok (Csv.add_row m r).
Proof.
  intros Hm k info Hk.
  destruct (decide (Csv.row_key r = k)) as [<-|Hne].
  - rewrite csv_add_row_eq in Hk. injection Hk as <-.
    split; [apply sorted_pair_le|]. simpl.
    pose proof (size_add_one (Csv.Type_ r)
      (Csv.types (default Csv.empty_info (m !! Csv.row_key r)))) as Hs.
    assert (size (Csv.types (default Csv.empty_info (m !! Csv.row_key r)))
            ≤ Csv.weight_of m (Csv.row_key r)) as Hold.
    { unfold Csv.weight_of. destruct (m !! Csv.row_key r) as [old|] eqn:Hold; simpl.
      - apply (Hm _ _ Hold).
      - done. }
    lia.
  - rewrite csv_add_row_ne in Hk by done. by apply Hm.
Qed.

Lemma csv_combined_edges_ok rows : map_Forall Csv.edge_ok (Csv.combined_edges rows).
Proof.
  unfold Csv.combined_edges.
  assert (map_Forall Csv.edge_ok (∅ : gmap (pystr * pystr) Csv.edge_info)) as H0
    by apply map_Forall_empty.
  revert H0. generalize (∅ : gmap (pystr * pystr) Csv.edge_info).
  induction rows as [|r rows IH]; intros m Hm; simpl; [done|].
  by apply IH, csv_add_row_ok.
Qed.

Lemma etl_add_event_ok m ev :
  map_Forall Etl.edge_ok m → map_Forall Etl.edge_ok (Etl.add_event m ev).
Proof.
  intros Hm k info Hk.
  destruct (decide (Etl.event_key ev = k)) as [<-|Hne].
  - destruct (etl_add_event_eq m ev) as (info' & Hl & Hw & Ht).
    rewrite Hl in Hk. injection Hk as <-.
    split; [apply sorted_pair_le|]. rewrite Hw, Ht.
    pose proof (size_add_one (Etl.ev_type ev)
      (Etl.types (default Etl.empty_info (m !! Etl.event_key ev)))) as Hs.
    assert (size (Etl.types (default Etl.empty_info (m !! Etl.event_key ev)))
            ≤ Etl.weight_of m (Etl.event_key ev)) as Hold.
    { unfold Etl.weight_of. destruct (m !! Etl.event_key ev) as [old|] eqn:Hold; simpl.
      - apply (Hm _ _ Hold).
      - done. }
    lia.
  - rewrite etl_add_event_ne in Hk by done. by apply Hm.
Qed.

Lemma etl_combine_ok idx : map_Forall Etl.edge_ok (Etl.combine idx).
Proof.
  rewrite etl_combine_events.
  assert (map_Forall Etl.edge_ok (∅ : gmap (pystr * pystr) Etl.edge_info)) as H0
    by apply map_Forall_empty.
  revert H0. generalize (∅ : gmap (pystr * pystr) Etl.edge_info).
  induction (Etl.sharing_events idx) as [|ev evs IH]; intros m Hm; simpl; [done|].
  by apply IH, etl_add_event_ok.
Qed.

(** C10: in both pipelines the exported source and target of an edge are in
    sorted order, and its weight is at least the number of its distinct
    categories, which is at least 1. *)
Theorem sorted_endpoints_and_weight_bound :
  (∀ lower iter rows k info,
     Csv.combined_edges rows !! k = Some info →
     let e := Csv.make_edge lower iter k info in
     str_le (Csv.out_Source e) (Csv.out_Target e)
     ∧ 1 ≤ size (Csv.types info) ≤ Csv.out_Weight e)
  ∧ (∀ iter records k info,
       Etl.combined_edges records !! k = Some info →
       let e := Etl.make_edge iter k info in
       str_le (Etl.source e) (Etl.target e)
       ∧ 1 ≤ size (Etl.types info) ≤ Etl.out_weight e).
Proof.
  split.
  - intros lower iter rows k info Hk. apply (csv_combined_edges_ok rows k info Hk).
  - intros iter records k info Hk.
    apply (etl_combine_ok (Etl.build_index records) k info Hk).
Qed.

Lemma sorted_endpoints_and_weight_bound_witness :
  (∃ info, Csv.combined_edges Ex.rows !! (Ex.A, Ex.B) = Some info
     ∧ str_le Ex.A Ex.B ∧ 1 ≤ size (Csv.types info) ≤ Csv.weight info)
  ∧ (∃ info, Etl.combined_edges Ex.records !! (Ex.A, Ex.B) = Some info
       ∧ str_le Ex.A Ex.B ∧ 1 ≤ size (Etl.types info) ≤ Etl.weight info).
Proof.
  destruct sorted_endpoints_and_weight_bound as [Hcsv Hetl].
  split.
  - destruct (proj2 (csv_edge_iff_row Ex.rows (Ex.A, Ex.B))) as [info Hk].
    { eexists. split; [left|reflexivity]. }
    exists info. split; [exact Hk|].
    exact (Hcsv ascii_lower elements Ex.rows (Ex.A, Ex.B) info Hk).
  - destruct (proj2 (etl_edge_iff_event (Etl.build_index Ex.records) (Ex.A, Ex.B)))
      as [info Hk].
    { exists (Etl.Event Ex.A Ex.B Etl.COMPETENCY (str_of "ML")).
      split; [left|reflexivity]. }
    exists info. split; [exact Hk|].
    exact (Hetl elements Ex.records (Ex.A, Ex.B) info Hk).
Defined.


(** ** The pair expander *)

Lemma elem_of_combinations2_cons {A} (x : A) l a b :
  (a, b) ∈ combinations2 (x :: l) ↔ (a = x ∧ b ∈ l) ∨ (a, b) ∈ combinations2 l.
Proof.
  simpl. rewrite elem_of_app, list_elem_of_fmap. split.
  - intros [(y & [= -> ->] & Hy)|H]; [by left|by right].
  - intros [[-> Hb]|H]; [left; by exists b|by right].
Qed.

Lemma elem_of_combinations2_inv {A} (l : list A) a b :
  (a, b) ∈ combinations2 l → a ∈ l ∧ b ∈ l.
Proof.
  induction l as [|x l IH]; [by intros ?%elem_of_nil|].
  rewrite elem_of_combinations2_cons, !elem_of_cons.
  intros [[-> Hb]|[Ha Hb]%IH]; auto.
Qed.

Lemma combinations2_length_double {A} (l : list A) :
  2 * length (combinations2 l) = length l * (length l - 1).
Proof.
  induction l as [|x l IH]; simpl; [done|].
  rewrite length_app, length_fmap. destruct (length l); nia.
Qed.

Lemma combinations2_length {A} (l : list A) :
  length (combinations2 l) = choose2 (length l).
Proof.
  unfold choose2. rewrite <-combinations2_length_double.
  symmetry. rewrite Nat.mul_comm. apply Nat.div_mul. done.
Qed.

Lemma combinations2_NoDup {A} (l : list A) : NoDup l → NoDup (combinations2 l).
Proof.
  induction 1 as [|x l Hx Hl IH]; simpl; [constructor|].
  apply NoDup_app. split_and!.
  - apply NoDup_fmap_2; [by intros ?? [=]|done].
  - intros [a b] (y & [= -> ->] & Hy)%list_elem_of_fmap Hin.
    by apply elem_of_combinations2_inv in Hin as [? _].
  - done.
Qed.

(** In a sorted list without repetition, the pairs are the pairs of
    members in strictly increasing order. *)
Lemma combinations2_sorted (l : list pystr) a b :
  StronglySorted str_le l → NoDup l →
  (a, b) ∈ combinations2 l ↔ a ∈ l ∧ b ∈ l ∧ str_ltb a b = true.
Proof.
  induction 1 as [|x l Hs IH Hx]; intros Hnd.
  - split; [by intros ?%elem_of_nil|]. by intros [?%elem_of_nil _].
  - apply NoDup_cons in Hnd as [Hxl Hnd].
    rewrite elem_of_combinations2_cons, IH, !elem_of_cons by done.
    rewrite Forall_forall in Hx. split.
    + intros [[-> Hb]|(Ha & Hb & Hlt)]; [|by auto].
      split_and!; [by left|by right|].
      destruct (str_ltb x b) eqn:Hxb; [done|].
      assert (x = b) as ->; [|done].
      apply str_ltb_trichotomy; [done|]. by apply Hx.
    + intros ([->|Ha] & [->|Hb] & Hlt).
      * by rewrite str_ltb_irrefl in Hlt.
      * by left.
      * apply Hx in Ha. unfold str_le in Ha. congruence.
      * by right.
Qed.


Lemma sorted_length l : length (sorted l) = length l.
Proof. apply Permutation_length, sorted_Permutation. Qed.

Lemma sorted_NoDup l : NoDup l → NoDup (sorted l).
Proof. intros H. by rewrite sorted_Permutation. Qed.

Lemma elem_of_sorted x l : x ∈ sorted l ↔ x ∈ l.
Proof. by rewrite sorted_Permutation. Qed.

Lemma elem_of_pair_events ev ct cv l :
  ev ∈ Etl.pair_events ((ct, cv), l)
  ↔ 2 ≤ length l ∧ Etl.ev_type ev = ct ∧ Etl.ev_value ev = cv
    ∧ (Etl.ev_source ev, Etl.ev_target ev) ∈ combinations2 (sorted l).
Proof.
  unfold Etl.pair_events. destruct (Nat.ltb_spec (length l) 2) as [Hlt|Hge].
  - split; [by intros ?%elem_of_nil|lia].
  - rewrite list_elem_of_fmap. split.
    + intros ([a b] & -> & Hin). by simpl.
    + intros (_ & <- & <- & Hin). eexists (_, _). split; [|done]. by destruct ev.
Qed.

(** One event of a given key for a list of events of distinct keys. *)
Lemma filter_key_NoDup (evs : list Etl.event) k :
  NoDup (Etl.event_key <$> evs) → k ∈ Etl.event_key <$> evs →
  length (filter (λ ev, Etl.event_key ev = k) evs) = 1.
Proof.
  induction evs as [|ev evs IH]; simpl; [by intros _ ?%elem_of_nil|].
  intros [Hev Hnd]%NoDup_cons Hin. rewrite filter_cons.
  case_decide as Hk; simpl.
  - f_equal. subst k.
    destruct (filter _ evs) as [|ev' f] eqn:Hf; [done|]. exfalso.
    assert (ev' ∈ filter (λ ev0, Etl.event_key ev0 = Etl.event_key ev) evs) as Hev'
      by (rewrite Hf; left).
    apply list_elem_of_filter in Hev' as [Heq Hev'].
    apply Hev. rewrite <-Heq. by apply list_elem_of_fmap_2.
  - apply elem_of_cons in Hin as [->|Hin]; [done|]. by apply IH.
Qed.

Lemma pair_events_keys ct cv l :
  NoDup l →
  Etl.event_key <$> Etl.pair_events ((ct, cv), l)
  = if length l <? 2 then [] else combinations2 (sorted l).
Proof.
  intros Hnd. unfold Etl.pair_events. destruct (length l <? 2); [done|].
  rewrite <-list_fmap_compose.
  rewrite <-(list_fmap_id (combinations2 (sorted l))) at 2.
  apply Forall_fmap_ext, Forall_forall. intros [a b] Hin.
  apply combinations2_sorted in Hin as (_ & _ & Hlt);
    [|apply sorted_StronglySorted|by apply sorted_NoDup].
  unfold Etl.event_key; simpl. apply sorted_pair_id. by apply str_ltb_asym.
Qed.

(** An index entry that lists a name twice: two distinct entities, three
    sharing events, where C(2,2) = 1; the entry is the index of three
    records. *)
Lemma pair_expander_distinct_counterexample :
  let entry := ((Etl.IMPACT, str_of "Health"), [Ex.A; Ex.A; Ex.B]) in
  Etl.build_index Ex.dup3_records = [entry]
  ∧ size (list_to_set entry.2 : gset pystr) = 2
  ∧ length (Etl.pair_events entry) = 3
  ∧ length (Etl.pair_events entry) ≠ choose2 (size (list_to_set entry.2 : gset pystr)).
Proof. vm_compute. split_and!; [reflexivity..|lia]. Qed.

(** C5, amended: an index entry whose entity list has [n] items, repeated
    names counted, gives rise to exactly C(n,2) sharing events of its type
    and value, none when [n < 2]; when no name is repeated in the list they
    are one event for every unordered pair of distinct entities of the
    list. *)
Theorem pair_expander_count conn_type conn_value (startup_list : list pystr) :
  let evs := Etl.pair_events ((conn_type, conn_value), startup_list) in
  length evs = choose2 (length startup_list)
  ∧ (length startup_list < 2 → evs = [])
  ∧ (NoDup startup_list →
     (∀ ev, ev ∈ evs →
        Etl.ev_source ev ∈ startup_list ∧ Etl.ev_target ev ∈ startup_list
        ∧ Etl.ev_source ev ≠ Etl.ev_target ev
        ∧ Etl.ev_type ev = conn_type ∧ Etl.ev_value ev = conn_value)
     ∧ (∀ a b, a ∈ startup_list → b ∈ startup_list → a ≠ b →
          length (filter (λ ev, Etl.event_key ev = sorted_pair a b) evs) = 1)).
Proof.
  intros evs. split_and!.
  - unfold evs, Etl.pair_events.
    destruct (Nat.ltb_spec (length startup_list) 2) as [Hlt|Hge].
    + destruct startup_list as [|x [|y l]]; simpl in *; [done|done|lia].
    + by rewrite length_fmap, combinations2_length, sorted_length.
  - intros Hlt. unfold evs, Etl.pair_events.
    by destruct (Nat.ltb_spec (length startup_list) 2); [|lia].
  - intros Hnd.
    pose proof (sorted_StronglySorted startup_list) as Hss.
    pose proof (sorted_NoDup _ Hnd) as Hnds.
    split.
    + intros ev (Hlen & Ht & Hv & Hin)%elem_of_pair_events.
      apply combinations2_sorted in Hin as (Ha & Hb & Hlt); [|done..].
      rewrite elem_of_sorted in Ha, Hb. split_and!; [done..| |done|done].
      intros Heq. rewrite Heq, str_ltb_irrefl in Hlt. done.
    + intros a b Ha Hb Hab. apply filter_key_NoDup.
      * unfold evs. rewrite pair_events_keys by done.
        destruct (length startup_list <? 2); [constructor|].
        by apply combinations2_NoDup.
      * unfold evs. rewrite pair_events_keys by done.
        destruct (Nat.ltb_spec (length startup_list) 2) as [Hlt|Hge].
        { destruct startup_list as [|x [|y l]]; simpl in *; [| |lia].
          - by apply elem_of_nil in Ha.
          - apply list_elem_of_singleton in Ha, Hb. congruence. }
        unfold sorted_pair. destruct (str_ltb b a) eqn:Hba.
        -- apply combinations2_sorted; [done..|]. by rewrite !elem_of_sorted.
        -- apply combinations2_sorted; [done..|]. rewrite !elem_of_sorted.
           split_and!; [done..|].
           destruct (str_ltb a b) eqn:Hab'; [done|].
           by destruct Hab; apply str_ltb_trichotomy.
Qed.

(** Four startups sharing a value: six events, one for each pair. *)
Lemma pair_expander_count_witness :
  let l := [Ex.B; Ex.A; Ex.D; Ex.C] in
  let evs := Etl.pair_events ((Etl.COMPETENCY, str_of "ML"), l) in
  NoDup l ∧ length evs = 6
  ∧ length (filter (λ ev, Etl.event_key ev = sorted_pair Ex.D Ex.A) evs) = 1.
Proof.
  intros l evs.
  assert (NoDup l) as Hnd by (apply (bool_decide_unpack _); vm_compute; exact I).
  destruct (pair_expander_count Etl.COMPETENCY (str_of "ML") l) as (Hlen & _ & Hpairs).
  split; [exact Hnd|]. split; [exact Hlen|].
  destruct (Hpairs Hnd) as [_ Hone].
  apply Hone; [apply (bool_decide_unpack _); vm_compute; exact I..|].
  intros [=].
Defined.

(** ** Self-edges *)





(** ** The length of the detailed label *)

Lemma csv_truncate_spec raw :
  let out := Csv.truncate raw in
  length out ≤ 120
  ∧ (length raw ≤ 120 → out = raw)
  ∧ (120 < length raw →
     ∃ body, out = body ++ [ELLIPSIS]
       ∧ body = rstrip (rstrip_chars (str_of ", ") (take 119 raw))
       ∧ body `prefix_of` take 119 raw
       ∧ length body ≤ 119
       ∧ (∀ c, last body = Some c → py_isspace c = false)
       ∧ (ELLIPSIS ∉ raw → ELLIPSIS ∉ body)).
Proof.
  intros out. unfold out, Csv.truncate, Csv.LABEL_MAX.
  change (120 - 1) with 119.
  assert (rstrip (rstrip_chars (str_of ", ") (take 119 raw)) `prefix_of` take 119 raw)
    as Hpre.
  { etrans; apply rstrip_by_prefix. }
  pose proof (prefix_length _ _ Hpre) as Hlen. rewrite length_take in Hlen.
  destruct (Nat.ltb_spec 120 (length raw)) as [Hlong|Hshort].
  - split_and!; [rewrite length_app; simpl; lia|lia|]. intros _.
    eexists. split_and!; [done..|lia| |].
    + intros c. apply rstrip_by_last.
    + intros Hraw Hin. apply Hraw.
      apply (subseteq_take 119), (elem_of_prefix _ _ _ Hin Hpre).
  - split_and!; [done|done|lia].
Qed.

Lemma etl_truncate_spec raw :
  let out := Etl.truncate raw in
  length out ≤ 120
  ∧ (length raw ≤ 120 → out = raw)
  ∧ (120 < length raw →
     ∃ body, out = body ++ [ELLIPSIS]
       ∧ body = rstrip_chars (str_of ", ") (take 119 raw)
       ∧ body `prefix_of` take 119 raw
       ∧ length body ≤ 119
       ∧ (∀ c, last body = Some c → c ≠ COMMA ∧ c ≠ SPACE)
       ∧ (ELLIPSIS ∉ raw → ELLIPSIS ∉ body)).
Proof.
  intros out. unfold out, Etl.truncate, Etl.MAX_LABEL.
  change (120 - 1) with 119.
  assert (rstrip_chars (str_of ", ") (take 119 raw) `prefix_of` take 119 raw)
    as Hpre by apply rstrip_by_prefix.
  pose proof (prefix_length _ _ Hpre) as Hlen. rewrite length_take in Hlen.
  destruct (Nat.ltb_spec 120 (length raw)) as [Hlong|Hshort].
  - split_and!; [rewrite length_app; simpl; lia|lia|]. intros _.
    eexists. split_and!; [done..|lia| |].
    + intros c Hc%rstrip_by_last. unfold in_chars in Hc.
      apply bool_decide_eq_false in Hc.
      split; intros ->; apply Hc; vm_compute; [left|right; left].
    + intros Hraw Hin. apply Hraw.
      apply (subseteq_take 119), (elem_of_prefix _ _ _ Hin Hpre).
  - split_and!; [done|done|lia].
Qed.

(** A truncated label that ends with two truncation markers, in both
    pipelines; a truncated label of the Airtable pipeline whose trailing
    white space, a tab, is not stripped; and a truncated label of the CSV
    pipeline that keeps a trailing comma, the white space after it being
    stripped last. *)
Lemma truncation_counterexample :
  ((λ i, length (Csv.label_joined ascii_lower Ex.A Ex.B (elements (Csv.connections i))))
     <$> Csv.combined_edges Ex.marker_rows !! (Ex.A, Ex.B) = Some 121
   ∧ (λ i, Csv.label_detailed ascii_lower Ex.A Ex.B (elements (Csv.connections i)))
       <$> Csv.combined_edges Ex.marker_rows !! (Ex.A, Ex.B)
     = Some (str_of "A, B, " ++ replicate 112 120%N ++ [ELLIPSIS; ELLIPSIS]))
  ∧ ((λ i, length (Etl.label_joined i))
       <$> Etl.combined_edges (Ex.sharing Ex.with_marker) !! (Ex.A, Ex.B) = Some 121
     ∧ Etl.label_detailed
         <$> Etl.combined_edges (Ex.sharing Ex.with_marker) !! (Ex.A, Ex.B)
       = Some (replicate 118 120%N ++ [ELLIPSIS; ELLIPSIS]))
  ∧ ((λ i, length (Etl.label_joined i))
       <$> Etl.combined_edges (Ex.sharing Ex.with_tab) !! (Ex.A, Ex.B) = Some 121
     ∧ Etl.label_detailed
         <$> Etl.combined_edges (Ex.sharing Ex.with_tab) !! (Ex.A, Ex.B)
       = Some (replicate 118 120%N ++ [9%N; ELLIPSIS])
     ∧ py_isspace 9 = true)
  ∧ ((λ i, length (Csv.label_joined ascii_lower Ex.A Ex.B (elements (Csv.connections i))))
       <$> Csv.combined_edges Ex.comma_rows !! (Ex.A, Ex.B) = Some 121
     ∧ (λ i, Csv.label_detailed ascii_lower Ex.A Ex.B (elements (Csv.connections i)))
         <$> Csv.combined_edges Ex.comma_rows !! (Ex.A, Ex.B)
       = Some (str_of "A, B, " ++ replicate 111 120%N ++ [COMMA; ELLIPSIS])).
Proof. split_and!; vm_compute; reflexivity. Qed.

(** C3, amended: in both pipelines the detailed label has at most 120
    characters; a label of at most 120 characters is kept, and a longer one
    becomes a prefix of its first 119 characters followed by one appended
    truncation marker.  The prefix is what the stripping leaves: in the CSV
    pipeline trailing commas and spaces are removed and then trailing white
    space, so it does not end with white space; in the Airtable pipeline
    trailing commas and spaces are removed, so it ends with neither.  The
    prefix holds no truncation marker when the assembled label holds none. *)
Theorem label_bound :
  (∀ lower source target conns,
     let raw := Csv.label_joined lower source target conns in
     let out := Csv.label_detailed lower source target conns in
     length out ≤ 120
     ∧ (length raw ≤ 120 → out = raw)
     ∧ (120 < length raw →
        ∃ body, out = body ++ [ELLIPSIS]
          ∧ body = rstrip (rstrip_chars (str_of ", ") (take 119 raw))
          ∧ body `prefix_of` take 119 raw
          ∧ length body ≤ 119
          ∧ (∀ c, last body = Some c → py_isspace c = false)
          ∧ (ELLIPSIS ∉ raw → ELLIPSIS ∉ body)))
  ∧ (∀ info,
       let raw := Etl.label_joined info in
       let out := Etl.label_detailed info in
       length out ≤ 120
       ∧ (length raw ≤ 120 → out = raw)
       ∧ (120 < length raw →
          ∃ body, out = body ++ [ELLIPSIS]
            ∧ body = rstrip_chars (str_of ", ") (take 119 raw)
            ∧ body `prefix_of` take 119 raw
            ∧ length body ≤ 119
            ∧ (∀ c, last body = Some c → c ≠ COMMA ∧ c ≠ SPACE)
            ∧ (ELLIPSIS ∉ raw → ELLIPSIS ∉ body))).
Proof.
  split.
  - intros lower source target conns. apply csv_truncate_spec.
  - intros info. apply etl_truncate_spec.
Qed.

(** A label of 121 characters without marker is cut to 119 and marked. *)
Lemma label_bound_witness :
  let info := default Etl.empty_info
                (Etl.combined_edges (Ex.sharing (replicate 121 120%N)) !! (Ex.A, Ex.B)) in
  120 < length (Etl.label_joined info)
  ∧ (ELLIPSIS ∉ Etl.label_joined info)
  ∧ ∃ body, Etl.label_detailed info = body ++ [ELLIPSIS]
      ∧ length body ≤ 119 ∧ (ELLIPSIS ∉ body).
Proof.
  intros info.
  assert (120 < length (Etl.label_joined info)) as Hlen by (vm_compute; lia).
  assert (ELLIPSIS ∉ Etl.label_joined info) as Hno
    by (apply (bool_decide_unpack _); vm_compute; exact I).
  split; [exact Hlen|]. split; [exact Hno|].
  destruct (proj2 label_bound info) as (_ & _ & Hlong).
  destruct (Hlong Hlen) as (body & Hout & _ & _ & Hb & _ & Hmark).
  exists body. split; [exact Hout|]. split; [exact Hb|]. exact (Hmark Hno).
Defined.

(** ** Parsing the connection strings *)

Lemma startswith_spec pre s : startswith pre s = true ↔ ∃ r, s = pre ++ r.
Proof.
  revert s. induction pre as [|a pre IH]; intros s; simpl.
  - split; [by exists s|done].
  - destruct s as [|b s]; [split; [done|by intros [r [=]]]|].
    rewrite andb_true_iff, N.eqb_eq, IH. split.
    + intros [-> [r ->]]. by exists r.
    + intros [r [= -> ->]]. split; [done|by exists r].
Qed.

Lemma split_once_unfold sep s :
  split_once sep s
  = if startswith sep s then Some ([], drop (length sep) s)
    else match s with
         | [] => None
         | c :: s' =>
             match split_once sep s' with
             | Some (a, b) => Some (c :: a, b)
             | None => None
             end
         end.
Proof. by destruct s. Qed.

(** [split_once] cuts at an occurrence of the separator ... *)
Lemma split_once_Some sep s a b :
  split_once sep s = Some (a, b) → s = a ++ sep ++ b.
Proof.
  revert a b. induction s as [|c s IH]; intros a b; rewrite split_once_unfold.
  - destruct (startswith sep []) eqn:Hs; [|done].
    apply startswith_spec in Hs as [r Hr]. intros [= <- <-].
    by destruct sep.
  - destruct (startswith sep (c :: s)) eqn:Hs.
    + apply startswith_spec in Hs as [r Hr]. intros [= <- <-].
      rewrite Hr. by rewrite drop_app_length.
    + destruct (split_once sep s) as [[a' b']|] eqn:Hs'; [|done].
      intros [= <- <-]. by rewrite (IH a' b').
Qed.

(** ... and fails only on a string in which the separator does not occur. *)
Lemma split_once_None sep s :
  split_once sep s = None → ∀ a b, s ≠ a ++ sep ++ b.
Proof.
  induction s as [|c s IH]; rewrite split_once_unfold.
  - destruct (startswith sep []) eqn:Hs; [done|]. intros _ a b Heq.
    destruct a; [|done]. simpl in Heq.
    assert (startswith sep [] = true) as Hs'; [|congruence].
    apply startswith_spec. by exists b.
  - destruct (startswith sep (c :: s)) eqn:Hs; [done|].
    destruct (split_once sep s) as [[a' b']|] eqn:Hs'; [done|].
    intros _ [|d a] b Heq.
    + assert (startswith sep (c :: s) = true) as Hs''; [|congruence].
      apply startswith_spec. by exists b.
    + injection Heq as -> Heq. by apply (IH eq_refl a b).
Qed.

Section parse_facts.
Variable lower : pystr → pystr.

Lemma parse_conn_filed parsed conn :
  dom parsed = dom Csv.parsed_init →
  let '(k, x) := Csv.filed_as lower conn in
  Csv.parse_conn lower parsed conn = <[k := parsed !!! k ++ [x]]> parsed
  ∧ k ∈ dom Csv.parsed_init.
Proof.
  intros Hdom. assert (Csv.OTHER ∈ dom Csv.parsed_init) as Hother.
  { apply elem_of_dom. by eexists. }
  unfold Csv.filed_as, Csv.parse_conn. destruct conn as [s|r]; [|done].
  destruct (split_once _ s) as [[t v]|]; [|done].
  case_decide as Hin.
  - split; [|done]. rewrite <-Hdom in Hin. apply elem_of_dom in Hin as [l Hl].
    by rewrite Hl, (lookup_total_correct _ _ _ Hl).
  - split; [|done]. rewrite <-Hdom in Hin. apply not_elem_of_dom in Hin.
    by rewrite Hin.
Qed.

Lemma parse_conn_dom parsed conn :
  dom parsed = dom Csv.parsed_init →
  dom (Csv.parse_conn lower parsed conn) = dom Csv.parsed_init.
Proof.
  intros Hdom. pose proof (parse_conn_filed parsed conn Hdom) as Hf.
  destruct (Csv.filed_as lower conn) as [k x]. destruct Hf as [-> Hk].
  rewrite dom_insert_L, Hdom.
  apply subseteq_union_1_L. by apply singleton_subseteq_l.
Qed.

Lemma parse_conn_mono parsed conn k x :
  dom parsed = dom Csv.parsed_init →
  x ∈ parsed !!! k → x ∈ Csv.parse_conn lower parsed conn !!! k.
Proof.
  intros Hdom Hx. pose proof (parse_conn_filed parsed conn Hdom) as Hf.
  destruct (Csv.filed_as lower conn) as [k' x']. destruct Hf as [-> Hk].
  destruct (decide (k' = k)) as [->|Hne].
  - rewrite lookup_total_insert_eq. apply elem_of_app. by left.
  - by rewrite lookup_total_insert_ne.
Qed.

Lemma parse_fold_spec conns parsed :
  dom parsed = dom Csv.parsed_init →
  let final := fold_left (Csv.parse_conn lower) conns parsed in
  dom final = dom Csv.parsed_init
  ∧ (∀ k x, x ∈ parsed !!! k → x ∈ final !!! k)
  ∧ (∀ conn, conn ∈ conns →
       (Csv.filed_as lower conn).2 ∈ final !!! (Csv.filed_as lower conn).1).
Proof.
  revert parsed. induction conns as [|conn conns IH]; intros parsed Hdom; simpl.
  - split_and!; [done|done|]. by intros conn ?%elem_of_nil.
  - destruct (IH _ (parse_conn_dom parsed conn Hdom)) as (Hd & Hmono & Hfiled).
    split_and!; [done| |].
    + intros k x Hx. by apply Hmono, parse_conn_mono.
    + intros conn' [->|Hin]%elem_of_cons; [|by apply Hfiled].
      apply Hmono. pose proof (parse_conn_filed parsed conn Hdom) as Hf.
      destruct (Csv.filed_as lower conn) as [k x]. destruct Hf as [-> _]. simpl.
      rewrite lookup_total_insert_eq. apply elem_of_app. right. left.
Qed.
End parse_facts.

(** C8: in the CSV pipeline, parsing the connections of an edge raises no
    error (the loop is a total function and keeps the six lists of
    [parsed]); a connection string without the separator is appended, whole,
    to the list of "other", and the value of a string whose category is not
    one of the known ones is appended to the list of "other"; after the loop
    both are in that list. *)
Theorem malformed_filed_under_other lower (conns : list Csv.cell) (s : pystr) :
  Csv.CellStr s ∈ conns →
  let final := Csv.parse lower conns in
  dom final = dom Csv.parsed_init
  ∧ ((∀ a b, s ≠ a ++ str_of ": " ++ b) →
     s ∈ final !!! Csv.OTHER
     ∧ ∀ parsed, dom parsed = dom Csv.parsed_init →
         Csv.parse_conn lower parsed (Csv.CellStr s)
         = <[Csv.OTHER := parsed !!! Csv.OTHER ++ [s]]> parsed)
  ∧ (∀ t v, split_once (str_of ": ") s = Some (t, v) →
       lower (strip t) ∉ dom Csv.parsed_init →
       strip v ∈ final !!! Csv.OTHER
       ∧ ∀ parsed, dom parsed = dom Csv.parsed_init →
           Csv.parse_conn lower parsed (Csv.CellStr s)
           = <[Csv.OTHER := parsed !!! Csv.OTHER ++ [strip v]]> parsed).
Proof.
  intros Hin final.
  destruct (parse_fold_spec lower conns Csv.parsed_init eq_refl) as (Hdom & _ & Hfiled).
  fold (Csv.parse lower conns) in Hdom, Hfiled. fold final in Hdom, Hfiled.
  specialize (Hfiled _ Hin). split_and!; [done| |].
  - intros Hnosep.
    assert (split_once (str_of ": ") s = None) as Hnone.
    { destruct (split_once (str_of ": ") s) as [[a b]|] eqn:Hs; [|done].
      by apply split_once_Some, Hnosep in Hs. }
    split.
    + unfold Csv.filed_as in Hfiled. by rewrite Hnone in Hfiled.
    + intros parsed Hp. pose proof (parse_conn_filed lower parsed (Csv.CellStr s) Hp) as Hf.
      unfold Csv.filed_as in Hf. rewrite Hnone in Hf. by destruct Hf.
  - intros t v Hs Hunknown. split.
    + unfold Csv.filed_as in Hfiled. rewrite Hs in Hfiled.
      by rewrite decide_False in Hfiled.
    + intros parsed Hp. pose proof (parse_conn_filed lower parsed (Csv.CellStr s) Hp) as Hf.
      unfold Csv.filed_as in Hf. rewrite Hs in Hf.
      rewrite decide_False in Hf by done. by destruct Hf.
Qed.

(** "foo: bar" leaves "bar" under "other", and a string without separator
    is filed there whole. *)
Lemma malformed_filed_under_other_witness :
  str_of "bar" ∈ Csv.parse ascii_lower Ex.odd_conns !!! Csv.OTHER
  ∧ str_of "no separator" ∈ Csv.parse ascii_lower Ex.odd_conns !!! Csv.OTHER.
Proof.
  split.
  - assert (Csv.CellStr (str_of "foo: bar") ∈ Ex.odd_conns) as Hin by left.
    destruct (malformed_filed_under_other ascii_lower _ _ Hin) as (_ & _ & Hunknown).
    apply (Hunknown (str_of "foo") (str_of "bar") eq_refl).
    apply (bool_decide_unpack _). vm_compute. exact I.
  - assert (Csv.CellStr (str_of "no separator") ∈ Ex.odd_conns) as Hin by (right; left).
    destruct (malformed_filed_under_other ascii_lower _ _ Hin) as (_ & Hnosep & _).
    apply Hnosep. by apply split_once_None.
Defined.

(** ** Deduplication *)

Lemma nonempty_spec s : nonempty s = true ↔ s ≠ [].
Proof. by destruct s. Qed.

Section dedupe_facts.
Variable lower : pystr → pystr.
Local Abbreviation key := (Csv.norm_key lower).
Local Abbreviation dedupe_go := (Csv.dedupe_go lower).

Lemma dedupe_go_cons seen s rest :
  dedupe_go seen (s :: rest)
  = if decide (key s ≠ [] ∧ key s ∉ seen)
    then s :: dedupe_go ({[key s]} ∪ seen) rest
    else dedupe_go seen rest.
Proof.
  simpl. destruct (nonempty (key s)) eqn:Hne; simpl.
  - apply nonempty_spec in Hne. case_bool_decide; case_decide; tauto.
  - rewrite decide_False; [done|]. intros [Hk _].
    apply nonempty_spec in Hk. congruence.
Qed.

Lemma dedupe_go_elem seen seq s :
  s ∈ dedupe_go seen seq → s ∈ seq ∧ key s ≠ [] ∧ key s ∉ seen.
Proof.
  revert seen. induction seq as [|x seq IH]; intros seen.
  - by intros ?%elem_of_nil.
  - rewrite dedupe_go_cons. case_decide as Hx.
    + intros [->|Hin]%elem_of_cons; [split_and!; [left|tauto..]|].
      apply IH in Hin as (? & ? & Hns). split_and!; [by right|done|].
      intros ?. apply Hns, elem_of_union. by right.
    + intros (? & ? & ?)%IH. split_and!; [by right|done..].
Qed.

Lemma dedupe_go_NoDup seen seq : NoDup (key <$> dedupe_go seen seq).
Proof.
  revert seen. induction seq as [|x seq IH]; intros seen; [constructor|].
  rewrite dedupe_go_cons. case_decide as Hx; [|done].
  rewrite fmap_cons. apply NoDup_cons. split; [|done].
  intros (y & Hxy & Hy)%list_elem_of_fmap.
  apply dedupe_go_elem in Hy as (_ & _ & Hns).
  apply Hns, elem_of_union. left. by apply elem_of_singleton.
Qed.

Lemma dedupe_go_sublist seen seq : dedupe_go seen seq `sublist_of` seq.
Proof.
  revert seen. induction seq as [|x seq IH]; intros seen; [done|].
  rewrite dedupe_go_cons. case_decide.
  - by apply sublist_skip.
  - by apply sublist_cons.
Qed.

(** Every value that normalises to a non-empty key is represented. *)
Lemma dedupe_go_complete seen seq s :
  s ∈ seq → key s ≠ [] → key s ∈ seen ∨ key s ∈ key <$> dedupe_go seen seq.
Proof.
  revert seen. induction seq as [|x seq IH]; intros seen; [by intros ?%elem_of_nil|].
  rewrite dedupe_go_cons. intros [->|Hin]%elem_of_cons Hk.
  - case_decide as Hx.
    + right. rewrite fmap_cons. left.
    + left. destruct (decide (key x ∈ seen)); tauto.
  - case_decide as Hx; [|by apply IH].
    destruct (IH ({[key x]} ∪ seen) Hin Hk) as [[Heq%elem_of_singleton|?]%elem_of_union|?].
    + right. rewrite fmap_cons, Heq. left.
    + by left.
    + right. rewrite fmap_cons. by right.
Qed.

(** First-seen order: a value appended to the input is appended to the
    output when its key is new, and dropped otherwise. *)
Lemma dedupe_go_snoc seen l s :
  dedupe_go seen (l ++ [s])
  = dedupe_go seen l
    ++ (if decide (key s ≠ [] ∧ (key s ∉ seen) ∧ (key s ∉ key <$> l)) then [s] else []).
Proof.
  revert seen. induction l as [|x l IH]; intros seen.
  - simpl app at 1. rewrite dedupe_go_cons. simpl.
    apply decide_ext. rewrite elem_of_nil. tauto.
  - change ((x :: l) ++ [s]) with (x :: (l ++ [s])).
    rewrite !dedupe_go_cons.
    destruct (decide (key x ≠ [] ∧ key x ∉ seen)) as [Hx|Hx].
    + rewrite IH. simpl app. do 2 f_equal. apply decide_ext.
      rewrite elem_of_cons, elem_of_union, elem_of_singleton. tauto.
    + rewrite IH. f_equal. apply decide_ext.
      rewrite fmap_cons, elem_of_cons. split; [|tauto].
      intros (Hk & Hns & Hnl). split_and!; [done..|].
      intros [Heq|?]; [|done]. rewrite <-Heq in Hx.
      destruct (decide (key s ∈ seen)); tauto.
Qed.
End dedupe_facts.

(** In the Airtable pipeline an edge keeps "ML" and "ml", equal after
    lower-casing, among its competencies and in its label. *)
Lemma dedup_counterexample :
  (λ i, sorted (elements (Etl.competencies i)))
    <$> Etl.combined_edges Ex.case_records !! (Ex.A, Ex.B)
  = Some [str_of "ML"; str_of "ml"]
  ∧ Csv.norm_key ascii_lower (str_of "ML") = Csv.norm_key ascii_lower (str_of "ml")
  ∧ Etl.label_detailed <$> Etl.combined_edges Ex.case_records !! (Ex.A, Ex.B)
    = Some (str_of "ML; ml").
Proof. split_and!; vm_compute; reflexivity. Qed.

(** ** The order of the tokens *)

Lemma append_if_present (s : gset pystr) (tok : pystr) (parts : list pystr)
    (rest : list (gset pystr * pystr)) :
  append_if (Etl.nonempty_set s) tok parts ++ Etl.present rest
  = parts ++ Etl.present ((s, tok) :: rest).
Proof.
  unfold append_if, Etl.nonempty_set, Etl.present. rewrite filter_cons. simpl.
  case_bool_decide; simpl.
  - by case_decide.
  - case_decide; [|done]. by rewrite <-app_assoc.
Qed.

Lemma etl_label_parts_order info :
  Etl.label_parts info = Etl.present (Etl.code_order info).
Proof.
  unfold Etl.label_parts, Etl.code_order.
  rewrite <-(app_nil_r (append_if _ _ _)).
  rewrite (append_if_present _ _ _ []), !append_if_present. done.
Qed.

Lemma csv_raw_parts_order source target comp imp market city country :
  Csv.raw_parts source target comp imp market city country
  = filter (λ tok, tok ≠ [])
      [source; if decide (target = source) then [] else target;
       comp; imp; market; city; country].
Proof.
  unfold Csv.raw_parts, append_if.
  destruct source, target, comp, imp, market, city, country;
    simpl; repeat case_decide; try done.
Qed.

Lemma csv_raw_parts_sublist source target comp imp market city country :
  Csv.raw_parts source target comp imp market city country
  `sublist_of` [source; target; comp; imp; market; city; country].
Proof.
  rewrite csv_raw_parts_order. rewrite filter_cons.
  assert (∀ (x : pystr) l1 l2, l1 `sublist_of` l2 →
            (if decide (x ≠ []) then x :: l1 else l1) `sublist_of` (x :: l2)) as Hstep.
  { intros x l1 l2 H. case_decide; [by apply sublist_skip|by apply sublist_cons]. }
  apply Hstep. rewrite filter_cons. case_decide as Ht.
  - case_decide; [done|]. apply sublist_skip, sublist_filter.
  - apply sublist_cons, sublist_filter.
Qed.

(** In the Airtable pipeline the city token comes before the region token,
    where the order of the specification has the region first. *)
Lemma token_order_counterexample :
  (λ i, (Etl.label_parts i, Etl.present (Etl.spec_order i), Etl.label_detailed i))
    <$> Etl.combined_edges Ex.located_records !! (Ex.A, Ex.B)
  = Some ([str_of "DE-Berlin"; str_of "EU"], [str_of "EU"; str_of "DE-Berlin"],
          str_of "DE-Berlin, EU").
Proof. vm_compute. reflexivity. Qed.

(** C7, amended: in both pipelines the detailed label is its tokens joined
    with ", " when that has at most 120 characters, and otherwise a prefix
    of the joined tokens followed by the truncation marker.  In the CSV
    pipeline the tokens are the token dedup of, in this order, the source
    name, the target name (unless equal to the source), the competency,
    impact and target-market tokens, the city and the country, without the
    empty ones: they are a subsequence of that list, and every token of the
    list that is not empty and has a non-empty normal form is represented
    by a token of the same normal form.  In the Airtable pipeline the tokens
    are those of the categories that have a value, in the order
    competencies, technical competencies, impacts, cities, countries,
    regions, cohorts. *)
Theorem token_precedence :
  (∀ lower source target conns,
     let parsed := Csv.parse lower conns in
     let tokens :=
       [source; if decide (target = source) then [] else target;
        Csv.multi_str lower parsed (str_of "competency");
        Csv.multi_str lower parsed (str_of "impact");
        Csv.multi_str lower parsed (str_of "target_market");
        Csv.first_location parsed (str_of "city");
        Csv.first_location parsed (str_of "country")] in
     let parts := Csv.final_parts lower source target conns in
     let joined := join (str_of ", ") parts in
     let out := Csv.label_detailed lower source target conns in
     parts = Csv.dedupe_go lower ∅ (filter (λ tok, tok ≠ []) tokens)
     ∧ parts `sublist_of` Csv.token_order lower source target conns
     ∧ (∀ tok, tok ∈ Csv.token_order lower source target conns →
          tok ≠ [] → Csv.norm_key lower tok ≠ [] →
          Csv.norm_key lower tok ∈ Csv.norm_key lower <$> parts)
     ∧ (length joined ≤ 120 → out = joined)
     ∧ (120 < length joined →
        ∃ body, body `prefix_of` joined ∧ out = body ++ [ELLIPSIS]))
  ∧ (∀ source target comp imp market city country,
       Csv.raw_parts source target comp imp market city country
       = filter (λ tok, tok ≠ [])
           [source; if decide (target = source) then [] else target;
            comp; imp; market; city; country])
  ∧ (∀ info,
       let joined := join (str_of ", ") (Etl.present (Etl.code_order info)) in
       let out := Etl.label_detailed info in
       Etl.label_parts info = Etl.present (Etl.code_order info)
       ∧ (length joined ≤ 120 → out = joined)
       ∧ (120 < length joined →
          ∃ body, body `prefix_of` joined ∧ out = body ++ [ELLIPSIS])).
Proof.
  split_and!.
  - intros lower source target conns parsed tokens parts joined out.
    assert (parts = Csv.dedupe_go lower ∅ (filter (λ tok, tok ≠ []) tokens)) as Hparts.
    { unfold parts, Csv.final_parts. by rewrite csv_raw_parts_order. }
    destruct (csv_truncate_spec joined) as (_ & Hshort & Hlong).
    split_and!; [done| | |done|].
    + unfold parts, Csv.final_parts, Csv.token_order.
      etrans; [apply dedupe_go_sublist|apply csv_raw_parts_sublist].
    + intros tok Htok Hne Hk.
      assert (tok ∈ filter (λ tok, tok ≠ []) tokens) as Hin.
      { apply list_elem_of_filter. split; [done|].
        unfold Csv.token_order in Htok. fold parsed in Htok. unfold tokens.
        apply elem_of_cons in Htok as [->|Htok]; [left|].
        apply elem_of_cons in Htok as [->|Htok]; [|by do 2 right].
        destruct (decide (target = source)) as [->|?]; [left|right; left]. }
      rewrite Hparts.
      destruct (dedupe_go_complete lower ∅ _ _ Hin Hk) as [?%elem_of_empty|?]; done.
    + intros Hlen. destruct (Hlong Hlen) as (body & Hout & _ & Hpre & _).
      exists body. split; [|done].
      etrans; [exact Hpre|]. apply prefix_take.
  - apply csv_raw_parts_order.
  - intros info joined out.
    assert (Etl.label_joined info = joined) as Hj.
    { unfold Etl.label_joined, joined. by rewrite etl_label_parts_order. }
    destruct (etl_truncate_spec (Etl.label_joined info)) as (_ & Hshort & Hlong).
    unfold out, Etl.label_detailed. rewrite Hj in Hshort, Hlong |- *.
    split_and!; [apply etl_label_parts_order|done|].
    intros Hlen. destruct (Hlong Hlen) as (body & Hout & _ & Hpre & _).
    exists body. split; [|done].
    etrans; [exact Hpre|]. apply prefix_take.
Qed.

(** The label of an edge with a competency and a city, and the label of an
    edge with a city and a region. *)
Lemma token_precedence_witness :
  let conns := Csv.CellStr <$> [str_of "city: DE - Berlin"; str_of "competency: ML"] in
  Csv.label_detailed ascii_lower Ex.A Ex.B conns
  = join (str_of ", ") [Ex.A; Ex.B; str_of "ML"; str_of "DE-Berlin"]
  ∧ Etl.label_detailed Ex.located_info = join (str_of ", ") [str_of "DE-Berlin"; str_of "EU"].
Proof.
  intros conns. split.
  - destruct (proj1 token_precedence ascii_lower Ex.A Ex.B conns)
      as (_ & _ & _ & Hshort & _).
    rewrite Hshort; [vm_compute; reflexivity|vm_compute; lia].
  - destruct (proj2 (proj2 token_precedence) Ex.located_info) as (_ & Hshort & _).
    rewrite Hshort; [vm_compute; reflexivity|vm_compute; lia].
Defined.

(** ** The order in which a set is iterated *)

(** The labels of the Airtable pipeline sort each set first, so that they
    are the same for every order in which the set is enumerated. *)
Lemma etl_joined_any_order (s : gset pystr) (l : list pystr) :
  l ≡ₚ elements s → join (str_of "; ") (sorted l) = Etl.joined s.
Proof. intros Hl. unfold Etl.joined. by rewrite (sorted_perm_eq _ _ Hl). Qed.

(** C4: the detailed label of the CSV pipeline follows the order in which
    the set of connections is iterated: the two enumerations of the set of
    one edge give two different labels. *)
Theorem csv_label_depends_on_iteration_order :
  (λ i, (Csv.out_LabelDetailed (Csv.make_edge ascii_lower elements (Ex.A, Ex.B) i),
         Csv.out_LabelDetailed
           (Csv.make_edge ascii_lower (reverse ∘ elements) (Ex.A, Ex.B) i)))
    <$> Csv.combined_edges Ex.two_competency_rows !! (Ex.A, Ex.B)
  = Some (str_of "A, B, NLP;ML", str_of "A, B, ML;NLP")
  ∧ (∀ s : gset Csv.cell, (reverse ∘ elements) s ≡ₚ elements s).
Proof.
  split; [vm_compute; reflexivity|].
  intros s. apply reverse_Permutation.
Qed.

(** ** Blank values *)

(** C9: a value of white space only passes the test [if v] and is
    stripped afterwards, so that the empty string is indexed: two startups
    with a blank competency share the connection ("competency", ""). *)
Theorem blank_value_is_indexed :
  Etl.clean_array_field (Etl.FList [Some (str_of "  ")]) = [[]]
  ∧ Etl.clean_array_field (Etl.FStr (str_of " ")) = [[]]
  ∧ Etl.build_index Ex.blank_records = [((Etl.COMPETENCY, []), [Ex.A; Ex.B])]
  ∧ (λ i, (Etl.weight i, sorted (elements (Etl.connections i))))
      <$> Etl.combined_edges Ex.blank_records !! (Ex.A, Ex.B)
    = Some (1, [str_of "competency: "]).
Proof. split_and!; vm_compute; reflexivity. Qed.

(** ** What the index holds *)

Lemma lstrip_by_head p s c : head (lstrip_by p s) = Some c → p c = false.
Proof.
  induction s as [|d s IH]; simpl; [done|].
  destruct (p d) eqn:Hd; [done|]. by intros [= <-].
Qed.

Lemma lstrip_by_id p s : (∀ c, head s = Some c → p c = false) → lstrip_by p s = s.
Proof. destruct s as [|c s]; simpl; [done|]. intros H. by rewrite (H c). Qed.

Lemma rstrip_by_head p s c : head (rstrip_by p s) = Some c → head s = Some c.
Proof.
  destruct (rstrip_by_prefix p s) as [k Hk]. rewrite Hk at 2.
  by destruct (rstrip_by p s).
Qed.

Lemma rstrip_by_idemp p s : rstrip_by p (rstrip_by p s) = rstrip_by p s.
Proof.
  induction s as [|c s IH]; simpl; [done|].
  destruct (rstrip_by p s) as [|d r] eqn:Hr.
  - destruct (p c) eqn:Hc; simpl; [done|]. by rewrite Hc.
  - change (rstrip_by p (c :: d :: r))
      with (match rstrip_by p (d :: r) with
            | [] => if p c then [] else [c]
            | r' => c :: r'
            end).
    by rewrite IH.
Qed.

Lemma strip_idemp s : strip (strip s) = strip s.
Proof.
  unfold strip. rewrite lstrip_by_id; [apply rstrip_by_idemp|].
  intros c Hc%rstrip_by_head. by apply lstrip_by_head in Hc.
Qed.

Lemma clean_array_field_stripped fv :
  Forall (λ v, strip v = v) (Etl.clean_array_field fv).
Proof.
  destruct fv as [[|c s]|items]; simpl.
  - constructor.
  - repeat constructor. apply strip_idemp.
  - destruct items as [|i items]; [constructor|].
    apply Forall_forall. intros v [x [Hx Hv]]%list_elem_of_omap.
    destruct x as [[|c s]|]; simpl in Hv; try done.
    injection Hv as <-. apply strip_idemp.
Qed.

Lemma index_append_stripped key name idx :
  strip key.2 = key.2 →
  Forall (λ e : pystr * pystr * list pystr, strip e.1.2 = e.1.2) idx →
  Forall (λ e : pystr * pystr * list pystr, strip e.1.2 = e.1.2)
    (Etl.index_append key name idx).
Proof.
  intros Hkey. induction 1 as [|[k l] idx Hk Hidx IH]; simpl.
  - by repeat constructor.
  - case_decide; by constructor.
Qed.

(** Every value in the index is trimmed of surrounding white space. *)
Lemma indexed_values_stripped records :
  Forall (λ e : pystr * pystr * list pystr, strip e.1.2 = e.1.2)
    (Etl.build_index records).
Proof.
  unfold Etl.build_index.
  assert (Forall (λ e : pystr * pystr * list pystr, strip e.1.2 = e.1.2) []) as H0
    by constructor.
  revert H0. generalize ([] : Etl.index).
  induction records as [|r records IH]; intros idx Hidx; simpl; [done|].
  apply IH. unfold Etl.index_record.
  destruct (nonempty _); [|done].
  revert idx Hidx. induction Etl.extractors as [|e es IHe]; intros idx Hidx; simpl; [done|].
  apply IHe. unfold Etl.index_values.
  pose proof (clean_array_field_stripped (default (Etl.FList []) (Etl.fields r !! e.2)))
    as Hvals. fold (Etl.get_clean r e.2) in Hvals.
  revert idx Hidx. induction Hvals as [|v vs Hv Hvs IHv]; intros idx Hidx; simpl; [done|].
  apply IHv. by apply index_append_stripped.
Qed.

(** ** The order of the sharing events *)

Lemma fold_left_Permutation {A B} (f : A → B → A) (l1 l2 : list B) :
  (∀ a x y, f (f a x) y = f (f a y) x) →
  l1 ≡ₚ l2 → ∀ a, fold_left f l1 a = fold_left f l2 a.
Proof.
  intros Hcomm. induction 1 as [|x l1 l2 _ IH|x y l|l1 l2 l3 _ IH1 _ IH2];
    intros a; simpl.
  - done.
  - apply IH.
  - by rewrite Hcomm.
  - by rewrite IH1.
Qed.

Lemma csv_add_row_comm m r1 r2 :
  Csv.add_row (Csv.add_row m r1) r2 = Csv.add_row (Csv.add_row m r2) r1.
Proof.
  unfold Csv.add_row. fold (Csv.row_key r1) (Csv.row_key r2).
  destruct (decide (Csv.row_key r1 = Csv.row_key r2)) as [Heq|Hne].
  - rewrite Heq, !lookup_insert_eq, !insert_insert_eq. simpl.
    f_equal. f_equal.
    + rewrite !(assoc_L (∪)). f_equal. apply (comm_L (∪)).
    + rewrite !(assoc_L (∪)). f_equal. apply (comm_L (∪)).
  - rewrite !lookup_insert_ne by done. by apply insert_insert_ne.
Qed.

(** The aggregated edges of the CSV pipeline do not depend on the order of
    the rows. *)
Lemma csv_combined_edges_Permutation rows1 rows2 :
  rows1 ≡ₚ rows2 → Csv.combined_edges rows1 = Csv.combined_edges rows2.
Proof.
  intros Hp. unfold Csv.combined_edges.
  by apply fold_left_Permutation; [apply csv_add_row_comm|].
Qed.

Lemma union_swap `{Countable X} (a b s : gset X) : a ∪ (b ∪ s) = b ∪ (a ∪ s).
Proof. rewrite !(assoc_L (∪)). f_equal. apply (comm_L (∪)). Qed.

(** The chain of tests on the connection type updates the set of values of
    that type and no other. *)
Lemma etl_update_info_fields ev i :
  Etl.update_info ev i
  = Etl.EdgeInfo (Etl.weight i + 1) ({[Etl.ev_type ev]} ∪ Etl.types i)
      ({[Etl.ev_type ev ++ str_of ": " ++ Etl.ev_value ev]} ∪ Etl.connections i)
      (Etl.add_value ev Etl.COMPETENCY (Etl.competencies i))
      (Etl.add_value ev Etl.TECHNICAL_COMPETENCY (Etl.technical_competencies i))
      (Etl.add_value ev Etl.IMPACT (Etl.impacts i))
      (Etl.add_value ev Etl.CITY (Etl.cities i))
      (Etl.add_value ev Etl.COUNTRY (Etl.countries i))
      (Etl.add_value ev Etl.REGION (Etl.regions i))
      (Etl.add_value ev Etl.COHORT (Etl.cohorts i)).
Proof.
  destruct i as [w ty cn co te im ci cu re ch], ev as [s t c v].
  unfold Etl.update_info, Etl.track, Etl.add_value; simpl.
  destruct (decide (c = Etl.COMPETENCY)) as [->|?]; [reflexivity|].
  destruct (decide (c = Etl.TECHNICAL_COMPETENCY)) as [->|?]; [reflexivity|].
  destruct (decide (c = Etl.IMPACT)) as [->|?]; [reflexivity|].
  destruct (decide (c = Etl.CITY)) as [->|?]; [reflexivity|].
  destruct (decide (c = Etl.COUNTRY)) as [->|?]; [reflexivity|].
  destruct (decide (c = Etl.REGION)) as [->|?]; [reflexivity|].
  destruct (decide (c = Etl.COHORT)) as [->|?]; reflexivity.
Qed.

Lemma etl_add_value_comm ev1 ev2 T s :
  Etl.add_value ev2 T (Etl.add_value ev1 T s) = Etl.add_value ev1 T (Etl.add_value ev2 T s).
Proof. unfold Etl.add_value. repeat case_decide; try done. apply union_swap. Qed.

Lemma etl_update_info_comm ev1 ev2 i :
  Etl.update_info ev2 (Etl.update_info ev1 i) = Etl.update_info ev1 (Etl.update_info ev2 i).
Proof.
  rewrite !etl_update_info_fields; simpl.
  f_equal; first [apply union_swap | apply etl_add_value_comm].
Qed.

Lemma etl_add_event_comm m ev1 ev2 :
  Etl.add_event (Etl.add_event m ev1) ev2 = Etl.add_event (Etl.add_event m ev2) ev1.
Proof.
  unfold Etl.add_event. fold (Etl.event_key ev1) (Etl.event_key ev2).
  destruct (decide (Etl.event_key ev1 = Etl.event_key ev2)) as [Heq|Hne].
  - rewrite Heq, !lookup_insert_eq, !insert_insert_eq. simpl.
    f_equal. apply etl_update_info_comm.
  - rewrite !lookup_insert_ne by done. by apply insert_insert_ne.
Qed.

(** The aggregated edges of the Airtable pipeline, and with them the
    detailed labels, which are functions of the aggregated edge, do not
    depend on the order of the sharing events. *)
Lemma etl_combine_Permutation idx1 idx2 :
  Etl.sharing_events idx1 ≡ₚ Etl.sharing_events idx2 →
  Etl.combine idx1 = Etl.combine idx2.
Proof.
  intros Hp. rewrite !etl_combine_events.
  by apply fold_left_Permutation; [apply etl_add_event_comm|].
Qed.

(** * Further properties *)

(** ** What the index holds, by record *)

Lemma indexed_nil key name : ¬ Etl.indexed [] key name.
Proof. intros (l & Hin & _). by apply elem_of_nil in Hin. Qed.

Lemma indexed_cons k l idx key name :
  Etl.indexed ((k, l) :: idx) key name
  ↔ (k = key ∧ name ∈ l) ∨ Etl.indexed idx key name.
Proof.
  unfold Etl.indexed. split.
  - intros (l' & [[= <- <-]|Hin]%elem_of_cons & Hn); [by left|]. right. by exists l'.
  - intros [[-> Hn]|(l' & Hin & Hn)].
    + exists l. split; [left|done].
    + exists l'. split; [by right|done].
Qed.

Lemma indexed_append key0 name0 idx key name :
  Etl.indexed (Etl.index_append key0 name0 idx) key name
  ↔ Etl.indexed idx key name ∨ (key = key0 ∧ name = name0).
Proof.
  induction idx as [|[k l] idx IH]; simpl.
  - rewrite indexed_cons, list_elem_of_singleton.
    split; [intros [[-> ->]|?%indexed_nil]; [by right|done]|].
    intros [?%indexed_nil|[-> ->]]; [done|by left].
  - case_decide as Hk.
    + subst k. rewrite !indexed_cons, elem_of_app, list_elem_of_singleton.
      split; [intros [[-> [?| ->]]|?]; auto|].
      intros [[[-> ?]|?]|[-> ->]]; auto.
    + rewrite !indexed_cons, IH. tauto.
Qed.

Lemma indexed_values ct values name0 idx key name :
  Etl.indexed (Etl.index_values ct values name0 idx) key name
  ↔ Etl.indexed idx key name ∨ (name = name0 ∧ key.1 = ct ∧ key.2 ∈ values).
Proof.
  unfold Etl.index_values. revert idx.
  induction values as [|v values IH]; intros idx; simpl.
  - split; [by left|]. intros [?|(_ & _ & ?%elem_of_nil)]; done.
  - rewrite IH, indexed_append, elem_of_cons. destruct key as [kt kv]; simpl. split.
    + intros [[?|[[= -> ->] ->]]|(-> & -> & ?)]; auto.
    + intros [?|(-> & -> & [->|?])]; auto.
Qed.

Lemma indexed_record idx r key name :
  Etl.indexed (Etl.index_record idx r) key name
  ↔ Etl.indexed idx key name
    ∨ (name = Etl.startup_name_of r ∧ name ≠ []
       ∧ ∃ e, e ∈ Etl.extractors ∧ e.1 = key.1 ∧ key.2 ∈ Etl.get_clean r e.2).
Proof.
  unfold Etl.index_record. fold (Etl.startup_name_of r).
  destruct (nonempty (Etl.startup_name_of r)) eqn:Hn.
  - apply nonempty_spec in Hn. revert idx.
    induction Etl.extractors as [|e es IH]; intros idx; simpl.
    + split; [by left|]. intros [?|(_ & _ & e & ?%elem_of_nil & _)]; done.
    + rewrite IH, indexed_values. split.
      * intros [[?|(-> & Hk & Hv)]|(-> & _ & e' & He' & Hk & Hv)]; [by left| |].
        -- right. split_and!; [done..|]. exists e. split; [left|done].
        -- right. split_and!; [done..|]. exists e'. split; [by right|done].
      * intros [?|(-> & _ & e' & [->|He']%elem_of_cons & Hk & Hv)]; [by left; left| |].
        -- left; right. done.
        -- right. split_and!; [done..|]. by exists e'.
  - split; [by left|]. intros [?|(-> & Hne & _)]; [done|].
    by destruct (Etl.startup_name_of r).
Qed.

Lemma indexed_fold records idx key name :
  Etl.indexed (fold_left Etl.index_record records idx) key name
  ↔ Etl.indexed idx key name
    ∨ ∃ r, r ∈ records ∧ name = Etl.startup_name_of r ∧ name ≠ []
       ∧ ∃ e, e ∈ Etl.extractors ∧ e.1 = key.1 ∧ key.2 ∈ Etl.get_clean r e.2.
Proof.
  revert idx. induction records as [|r records IH]; intros idx; simpl.
  - split; [by left|]. intros [?|(r & ?%elem_of_nil & _)]; done.
  - rewrite IH, indexed_record. split.
    + intros [[?|?]|(r' & Hr' & ?)]; [by left| |].
      * right. exists r. split; [left|done].
      * right. exists r'. split; [by right|done].
    + intros [?|(r' & [->|Hr']%elem_of_cons & ?)]; [by left; left| |].
      * by left; right.
      * right. by exists r'.
Qed.

Lemma indexed_build_index records key name :
  Etl.indexed (Etl.build_index records) key name
  ↔ ∃ r, r ∈ records ∧ name = Etl.startup_name_of r ∧ name ≠ []
      ∧ ∃ e, e ∈ Etl.extractors ∧ e.1 = key.1 ∧ key.2 ∈ Etl.get_clean r e.2.
Proof.
  unfold Etl.build_index. rewrite indexed_fold.
  split; [intros [?%indexed_nil|?]; done|by right].
Qed.

(** X1: a startup is listed in the index under a (type, value) key exactly
    when a record with that non-empty trimmed name has the value, cleaned,
    in the field of an extractor of that type. *)
Theorem index_sound_and_complete records conn_type value name :
  Etl.indexed (Etl.build_index records) (conn_type, value) name
  ↔ ∃ r, r ∈ records ∧ name = Etl.startup_name_of r ∧ name ≠ []
      ∧ ∃ field, (conn_type, field) ∈ Etl.extractors
          ∧ value ∈ Etl.get_clean r field.
Proof.
  rewrite indexed_build_index. split.
  - intros (r & Hr & Hn & Hne & [ct f] & He & Hk & Hv).
    simpl in *. subst ct. exists r. split_and!; [done..|]. by exists f.
  - intros (r & Hr & Hn & Hne & f & He & Hv).
    exists r. split_and!; [done..|]. by exists (conn_type, f).
Qed.

Lemma build_index_invariant (P : Etl.index → Prop) :
  P [] →
  (∀ key name idx, P idx → P (Etl.index_append key name idx)) →
  ∀ records, P (Etl.build_index records).
Proof.
  intros Hnil Happ records. unfold Etl.build_index.
  generalize dependent ([] : Etl.index).
  induction records as [|r records IH]; intros idx Hidx; simpl; [done|].
  apply IH. unfold Etl.index_record. destruct (nonempty _); [|done].
  generalize dependent idx.
  induction Etl.extractors as [|e es IHe]; intros idx Hidx; simpl; [done|].
  apply IHe. unfold Etl.index_values. generalize dependent idx.
  induction (Etl.get_clean r e.2) as [|v vs IHv]; intros idx Hidx; simpl; [done|].
  by apply IHv, Happ.
Qed.

Lemma index_append_keys key name idx :
  (Etl.index_append key name idx).*1
  = if decide (key ∈ idx.*1) then idx.*1 else idx.*1 ++ [key].
Proof.
  induction idx as [|[k l] idx IH].
  - by destruct (decide (key ∈ _)) as [Hin%elem_of_nil|_].
  - cbn [Etl.index_append]. rewrite (fmap_cons fst (k, l) idx). cbn [fst].
    destruct (decide (k = key)) as [->|Hk].
    + rewrite fmap_cons. cbn [fst]. rewrite decide_True by left. done.
    + rewrite fmap_cons, IH. cbn [fst].
      destruct (decide (key ∈ idx.*1)).
      * rewrite decide_True by (by right). done.
      * rewrite decide_False; [done|]. intros [?|?]%elem_of_cons; congruence.
Qed.

Lemma index_append_NoDup key name idx :
  NoDup idx.*1 → NoDup (Etl.index_append key name idx).*1.
Proof.
  intros Hnd. rewrite index_append_keys. case_decide; [done|].
  apply NoDup_app. split_and!; [done| |apply NoDup_singleton].
  intros k Hk ->%list_elem_of_singleton. done.
Qed.

Lemma index_append_nonempty key name idx :
  Forall (λ e : pystr * pystr * list pystr, e.2 ≠ []) idx →
  Forall (λ e : pystr * pystr * list pystr, e.2 ≠ []) (Etl.index_append key name idx).
Proof.
  induction 1 as [|[k l] idx Hk Hidx IH]; simpl.
  - by repeat constructor.
  - case_decide; constructor; try done. simpl. by destruct l.
Qed.

(** X2: the index has one entry for each (type, value) key; the value of
    every key is trimmed and its type is one of the seven connection types;
    every entry lists at least one startup, and every listed name is trimmed
    and not empty. *)
Theorem index_entries_well_formed records :
  NoDup (Etl.build_index records).*1
  ∧ Forall (λ e : pystr * pystr * list pystr,
              strip e.1.2 = e.1.2 ∧ e.1.1 ∈ Etl.conn_types ∧ e.2 ≠ []
              ∧ Forall (λ name, strip name = name ∧ name ≠ []) e.2)
      (Etl.build_index records).
Proof.
  split.
  - apply (build_index_invariant (λ idx, NoDup idx.*1)); [constructor|].
    intros key name idx. apply index_append_NoDup.
  - pose proof (indexed_values_stripped records) as Hstrip.
    assert (Forall (λ e : pystr * pystr * list pystr, e.2 ≠ [])
              (Etl.build_index records)) as Hne.
    { apply (build_index_invariant
               (λ idx, Forall (λ e : pystr * pystr * list pystr, e.2 ≠ []) idx));
        [constructor|apply index_append_nonempty]. }
    rewrite Forall_forall in Hstrip, Hne. apply Forall_forall.
    intros [[ct v] l] Hin. specialize (Hstrip _ Hin). specialize (Hne _ Hin).
    simpl in *. split_and!; [done| |done|].
    + destruct l as [|n l]; [done|].
      assert (Etl.indexed (Etl.build_index records) (ct, v) n) as Hn.
      { exists (n :: l). split; [done|left]. }
      apply indexed_build_index in Hn as (_ & _ & _ & _ & e & He & Hk & _).
      apply list_elem_of_fmap. exists e. by split.
    + apply Forall_forall. intros n Hn.
      assert (Etl.indexed (Etl.build_index records) (ct, v) n) as Hi by by exists l.
      apply indexed_build_index in Hi as (r & _ & -> & Hne' & _).
      split; [apply strip_idemp|done].
Qed.

(** ** Nodes and the edges between them *)

Lemma build_nodes_filter records :
  Etl.build_nodes records
  = Etl.make_node <$> filter (λ r, Etl.startup_name_of r ≠ []) records.
Proof.
  unfold Etl.build_nodes.
  assert (∀ nodes, fold_left Etl.add_node records nodes
            = nodes ++ (Etl.make_node <$> filter (λ r, Etl.startup_name_of r ≠ []) records))
    as Hgen; [|apply Hgen].
  induction records as [|r records IH]; intros nodes; simpl.
  - by rewrite app_nil_r.
  - rewrite IH, filter_cons. unfold Etl.add_node.
    destruct (nonempty (Etl.startup_name_of r)) eqn:Hn.
    + apply nonempty_spec in Hn. rewrite decide_True by done.
      by rewrite fmap_cons, <-app_assoc.
    + rewrite decide_False; [done|]. intros Hne%nonempty_spec. congruence.
Qed.

(** X3: the records without a name (missing, empty or blank) give no node;
    every other record gives one node, in the order of the records, whose
    id and label are the trimmed, non-empty name. *)
Theorem nodes_of_named_records records :
  Etl.build_nodes records
  = Etl.make_node <$> filter (λ r, Etl.startup_name_of r ≠ []) records
  ∧ Forall (λ n, Etl.node_id n ≠ [] ∧ strip (Etl.node_id n) = Etl.node_id n
                 ∧ Etl.node_label n = Etl.node_id n)
      (Etl.build_nodes records)
  ∧ length (Etl.build_nodes records) ≤ length records.
Proof.
  rewrite build_nodes_filter. split_and!; [done| |].
  - apply Forall_fmap, Forall_forall. intros r [Hne _]%list_elem_of_filter.
    simpl. split_and!; [done|apply strip_idemp|done].
  - rewrite length_fmap. apply length_filter.
Qed.

Lemma sorted_pair_comm a b : sorted_pair a b = sorted_pair b a.
Proof.
  unfold sorted_pair.
  destruct (str_ltb b a) eqn:Hba, (str_ltb a b) eqn:Hab; try done.
  - apply str_ltb_asym in Hba. congruence.
  - by rewrite (str_ltb_trichotomy _ _ Hab Hba).
Qed.

Lemma sorted_pair_cases a b :
  sorted_pair a b = (a, b) ∨ sorted_pair a b = (b, a).
Proof. unfold sorted_pair. destruct (str_ltb b a); auto. Qed.

Lemma sorted_pair_eq s t a b :
  sorted_pair s t = sorted_pair a b → (s = a ∧ t = b) ∨ (s = b ∧ t = a).
Proof.
  destruct (sorted_pair_cases s t) as [->| ->], (sorted_pair_cases a b) as [->| ->];
    intros [= -> ->]; auto.
Qed.

(** The names of an event are names of the entry it comes from. *)
Lemma pair_events_names entry ev :
  ev ∈ Etl.pair_events entry →
  Etl.ev_source ev ∈ entry.2 ∧ Etl.ev_target ev ∈ entry.2.
Proof.
  destruct entry as [[ct cv] l]. intros (_ & _ & _ & Hin)%elem_of_pair_events.
  apply elem_of_combinations2_inv in Hin. by rewrite !elem_of_sorted in Hin.
Qed.

Lemma node_id_of_named records r :
  r ∈ records → Etl.startup_name_of r ≠ [] →
  Etl.startup_name_of r ∈ Etl.node_id <$> Etl.build_nodes records.
Proof.
  intros Hr Hne. rewrite build_nodes_filter, <-list_fmap_compose.
  apply list_elem_of_fmap. exists r. split; [done|]. by apply list_elem_of_filter.
Qed.

(** X4: both ends of every edge are ids of nodes. *)
Theorem edge_ends_are_nodes records k :
  is_Some (Etl.combined_edges records !! k) →
  k.1 ∈ Etl.node_id <$> Etl.build_nodes records
  ∧ k.2 ∈ Etl.node_id <$> Etl.build_nodes records.
Proof.
  intros (ev & (entry & Hev & Hentry)%list_elem_of_bind & Hk)%etl_edge_iff_event.
  apply pair_events_names in Hev as [Hs Ht].
  assert (∀ n, n ∈ entry.2 → n ∈ Etl.node_id <$> Etl.build_nodes records) as Hnode.
  { intros n Hn. destruct entry as [key l].
    assert (Etl.indexed (Etl.build_index records) key n) as Hi by by exists l.
    apply indexed_build_index in Hi as (r & Hr & -> & Hne & _).
    by apply node_id_of_named. }
  unfold Etl.event_key in Hk.
  destruct (sorted_pair_cases (Etl.ev_source ev) (Etl.ev_target ev)) as [Heq|Heq];
    rewrite Heq in Hk; subst k; simpl; auto.
Qed.

Lemma edge_ends_are_nodes_witness :
  Ex.A ∈ Etl.node_id <$> Etl.build_nodes Ex.records
  ∧ Ex.B ∈ Etl.node_id <$> Etl.build_nodes Ex.records.
Proof.
  apply (edge_ends_are_nodes Ex.records (Ex.A, Ex.B)).
  apply etl_edge_iff_event.
  exists (Etl.Event Ex.A Ex.B Etl.COMPETENCY (str_of "ML")).
  split; [left|reflexivity].
Defined.

Lemma combinations2_two {A} (l : list A) a b :
  a ∈ l → b ∈ l → a ≠ b → (a, b) ∈ combinations2 l ∨ (b, a) ∈ combinations2 l.
Proof.
  induction l as [|x l IH]; [by intros ?%elem_of_nil|].
  rewrite !elem_of_combinations2_cons.
  intros [->|Ha]%elem_of_cons [->|Hb]%elem_of_cons Hab; try done; auto.
  destruct (IH Ha Hb Hab); auto.
Qed.

Lemma pair_events_connect entry a b :
  a ≠ b →
  (∃ ev, ev ∈ Etl.pair_events entry ∧ Etl.event_key ev = sorted_pair a b)
  ↔ a ∈ entry.2 ∧ b ∈ entry.2.
Proof.
  intros Hab. split.
  - intros (ev & [Hs Ht]%pair_events_names & Hk).
    by apply sorted_pair_eq in Hk as [[<- <-]|[<- <-]].
  - destruct entry as [[ct cv] l]; simpl. intros [Ha Hb].
    assert (2 ≤ length l) as Hlen.
    { destruct l as [|x [|y l]]; simpl; [by apply elem_of_nil in Ha| |lia].
      apply list_elem_of_singleton in Ha, Hb. congruence. }
    destruct (combinations2_two (sorted l) a b) as [Hin|Hin];
      [by apply elem_of_sorted..|done| |].
    + exists (Etl.Event a b ct cv). split; [by apply elem_of_pair_events|done].
    + exists (Etl.Event b a ct cv). split; [by apply elem_of_pair_events|].
      apply sorted_pair_comm.
Qed.

Lemma NoDup_fst_functional {A B} (l : list (A * B)) x y1 y2 :
  NoDup l.*1 → (x, y1) ∈ l → (x, y2) ∈ l → y1 = y2.
Proof.
  induction l as [|[a b] l IH]; simpl; [by intros _ ?%elem_of_nil|].
  intros [Ha Hnd]%NoDup_cons H1 H2.
  apply elem_of_cons in H1 as [H1|H1]; apply elem_of_cons in H2 as [H2|H2].
  - congruence.
  - injection H1 as -> ->. destruct Ha. apply list_elem_of_fmap. by exists (a, y2).
  - injection H2 as -> ->. destruct Ha. apply list_elem_of_fmap. by exists (a, y1).
  - by apply IH.
Qed.

Lemma extractors_field ct f1 f2 :
  (ct, f1) ∈ Etl.extractors → (ct, f2) ∈ Etl.extractors → f1 = f2.
Proof.
  apply NoDup_fst_functional. apply (bool_decide_unpack _). by vm_compute.
Qed.

(** X5: two startups of different names are joined by an edge exactly when
    two records of these names have a cleaned value in common in the field
    of one connection type. *)
Theorem connected_iff_shared_value records a b :
  a ≠ b →
  is_Some (Etl.combined_edges records !! sorted_pair a b)
  ↔ ∃ ra rb conn_type field value,
      ra ∈ records ∧ rb ∈ records
      ∧ Etl.startup_name_of ra = a ∧ Etl.startup_name_of rb = b
      ∧ a ≠ [] ∧ b ≠ []
      ∧ (conn_type, field) ∈ Etl.extractors
      ∧ value ∈ Etl.get_clean ra field ∧ value ∈ Etl.get_clean rb field.
Proof.
  intros Hab. unfold Etl.combined_edges. rewrite etl_edge_iff_event.
  unfold Etl.sharing_events. split.
  - intros (ev & (entry & Hev & Hentry)%list_elem_of_bind & Hk).
    assert (a ∈ entry.2 ∧ b ∈ entry.2) as [Ha Hb].
    { apply pair_events_connect; [done|]. by exists ev. }
    destruct entry as [[ct v] l]; simpl in *.
    assert (Etl.indexed (Etl.build_index records) (ct, v) a) as Hia by by exists l.
    assert (Etl.indexed (Etl.build_index records) (ct, v) b) as Hib by by exists l.
    apply indexed_build_index in Hia as (ra & Hra & Hna & Hnea & [cta fa] & Hea & Hka & Hva).
    apply indexed_build_index in Hib as (rb & Hrb & Hnb & Hneb & [ctb fb] & Heb & Hkb & Hvb).
    simpl in *. subst cta ctb.
    rewrite (extractors_field _ _ _ Heb Hea) in Hvb.
    exists ra, rb, ct, fa, v. by split_and!.
  - intros (ra & rb & ct & f & v & Hra & Hrb & Hna & Hnb & Hnea & Hneb & He & Hva & Hvb).
    assert (Etl.indexed (Etl.build_index records) (ct, v) a) as (la & Hla & Ha).
    { apply indexed_build_index. exists ra. split_and!; [done..|]. by exists (ct, f). }
    assert (Etl.indexed (Etl.build_index records) (ct, v) b) as (lb & Hlb & Hb).
    { apply indexed_build_index. exists rb. split_and!; [done..|]. by exists (ct, f). }
    assert (la = lb) as <-.
    { eapply NoDup_fst_functional; [|done..].
      apply (build_index_invariant (λ idx, NoDup idx.*1)); [constructor|].
      intros key name idx. apply index_append_NoDup. }
    destruct (proj2 (pair_events_connect ((ct, v), la) a b Hab)) as (ev & Hev & Hk);
      [done|].
    exists ev. split; [|done]. apply list_elem_of_bind. by exists ((ct, v), la).
Qed.

Lemma connected_iff_shared_value_witness :
  is_Some (Etl.combined_edges Ex.records !! sorted_pair Ex.B Ex.A).
Proof.
  apply (connected_iff_shared_value Ex.records Ex.B Ex.A); [by intros [=]|].
  eexists _, _, Etl.COMPETENCY, (str_of "Core Competencies"), (str_of "ML").
  split_and!; [right; left|left|reflexivity|reflexivity|by intros [=]|by intros [=]
              |left|right; left|left].
Defined.

(** ** The pairs of an entry *)

Lemma combinations2_StronglySorted {A} (R : relation A) (l : list A) a b :
  StronglySorted R l → (a, b) ∈ combinations2 l → R a b.
Proof.
  induction 1 as [|x l Hs IH Hx]; [by intros ?%elem_of_nil|].
  rewrite elem_of_combinations2_cons. intros [[-> Hb]|Hin]; [|by apply IH].
  rewrite Forall_forall in Hx. by apply Hx.
Qed.

(** X6: every sharing event has its source before or equal to its target in
    the order of the strings, so that sorting the pair again changes
    nothing: the key of an event is the pair as it was emitted. *)
Theorem events_in_canonical_order entry ev :
  ev ∈ Etl.pair_events entry →
  str_le (Etl.ev_source ev) (Etl.ev_target ev)
  ∧ Etl.event_key ev = (Etl.ev_source ev, Etl.ev_target ev).
Proof.
  destruct entry as [[ct cv] l]. intros (_ & _ & _ & Hin)%elem_of_pair_events.
  apply (combinations2_StronglySorted str_le) in Hin; [|apply sorted_StronglySorted].
  split; [done|]. by apply sorted_pair_id.
Qed.

Lemma events_in_canonical_order_witness :
  str_le Ex.A Ex.D ∧ sorted_pair Ex.A Ex.D = (Ex.A, Ex.D).
Proof.
  apply (events_in_canonical_order ((Etl.COMPETENCY, str_of "ML"), [Ex.D; Ex.B; Ex.A])
           (Etl.Event Ex.A Ex.D Etl.COMPETENCY (str_of "ML"))).
  right. left.
Defined.

(** ** Counting edges and weights *)

(** Replacing the entry of a key changes the sum of a measure of the
    entries by the difference of the measures. *)
Lemma map_sum_insert `{Countable K} {V} (w : V → nat) (m : gmap K V) k v :
  map_fold (λ _ x acc, w x + acc) 0 (<[k:=v]> m) + from_option w 0 (m !! k)
  = w v + map_fold (λ _ x acc, w x + acc) 0 m.
Proof.
  rewrite <-insert_delete_eq, map_fold_insert_L;
    [|intros; lia|apply lookup_delete_eq].
  destruct (m !! k) as [old|] eqn:Hk; simpl.
  - rewrite (map_fold_delete_L _ _ k old m); [lia|intros; lia|done].
  - rewrite delete_id by done. lia.
Qed.

Lemma csv_total_weight_add_row m r :
  Csv.total_weight (Csv.add_row m r) = Csv.total_weight m + 1.
Proof.
  unfold Csv.total_weight, Csv.add_row.
  pose proof (map_sum_insert Csv.weight m (sorted_pair (Csv.Source r) (Csv.Target r))
    (Csv.EdgeInfo
       (Csv.weight (default Csv.empty_info
                      (m !! sorted_pair (Csv.Source r) (Csv.Target r))) + 1)
       ({[Csv.Type_ r]} ∪ Csv.types (default Csv.empty_info
                      (m !! sorted_pair (Csv.Source r) (Csv.Target r))))
       ({[Csv.Connection_full r]} ∪ Csv.connections (default Csv.empty_info
                      (m !! sorted_pair (Csv.Source r) (Csv.Target r)))))) as Hs.
  simpl in Hs. destruct (m !! sorted_pair _ _); simpl in *; lia.
Qed.

Lemma etl_total_weight_add_event m ev :
  Etl.total_weight (Etl.add_event m ev) = Etl.total_weight m + 1.
Proof.
  unfold Etl.total_weight, Etl.add_event.
  pose proof (map_sum_insert Etl.weight m (sorted_pair (Etl.ev_source ev) (Etl.ev_target ev))
    (Etl.update_info ev (default Etl.empty_info
       (m !! sorted_pair (Etl.ev_source ev) (Etl.ev_target ev))))) as Hs.
  rewrite etl_update_info_fields in Hs. simpl in Hs.
  rewrite etl_update_info_fields.
  destruct (m !! sorted_pair _ _); simpl in *; lia.
Qed.

Lemma pair_events_length entry :
  length (Etl.pair_events entry) = choose2 (length entry.2).
Proof.
  destruct entry as [[ct cv] l]; simpl.
  destruct (Nat.ltb_spec (length l) 2) as [Hlt|Hge].
  - destruct l as [|x [|y l]]; simpl in *; [done|done|lia].
  - by rewrite length_fmap, combinations2_length, sorted_length.
Qed.

(** X7: the weights of all the edges add up to the number of sharing
    events: to the number of rows in the CSV pipeline, and in the Airtable
    pipeline to the sum, over the entries of the index, of the number of
    pairs of its list. *)
Theorem total_weight_counts_events :
  (∀ rows, Csv.total_weight (Csv.combined_edges rows) = length rows)
  ∧ (∀ idx, Etl.total_weight (Etl.combine idx) = length (Etl.sharing_events idx))
  ∧ (∀ idx, length (Etl.sharing_events idx)
            = sum_list ((λ entry, choose2 (length entry.2)) <$> idx)).
Proof.
  split_and!.
  - intros rows. unfold Csv.combined_edges.
    assert (∀ m, Csv.total_weight (fold_left Csv.add_row rows m)
                 = Csv.total_weight m + length rows) as Hgen.
    { induction rows as [|r rows IH]; intros m; simpl; [lia|].
      rewrite IH, csv_total_weight_add_row. lia. }
    rewrite Hgen. unfold Csv.total_weight. by rewrite map_fold_empty.
  - intros idx. rewrite etl_combine_events.
    assert (∀ evs m, Etl.total_weight (fold_left Etl.add_event evs m)
                     = Etl.total_weight m + length evs) as Hgen.
    { induction evs as [|ev evs IH]; intros m; simpl; [lia|].
      rewrite IH, etl_total_weight_add_event. lia. }
    rewrite Hgen. unfold Etl.total_weight. by rewrite map_fold_empty.
  - intros idx. unfold Etl.sharing_events.
    induction idx as [|entry idx IH]; [done|].
    rewrite bind_cons, length_app, IH, pair_events_length. done.
Qed.

Lemma size_list_to_set_le `{Countable K} (l : list K) :
  size (list_to_set l : gset K) ≤ length l.
Proof.
  induction l as [|x l IH]; [by rewrite list_to_set_nil, size_empty|].
  rewrite list_to_set_cons, size_union_alt, size_singleton. cbn [length].
  assert (list_to_set l ∖ {[x]} ⊆ (list_to_set l : gset K)) as Hsub.
  { intros y Hy. apply elem_of_difference in Hy. tauto. }
  apply subseteq_size in Hsub. lia.
Qed.

Lemma csv_add_row_swap m r : Csv.add_row m (Csv.swap r) = Csv.add_row m r.
Proof. unfold Csv.add_row, Csv.swap; simpl. by rewrite sorted_pair_comm. Qed.

(** X8: there is exactly one edge for each unordered pair that occurs in a
    sharing event, so no more edges than events; in the CSV pipeline,
    exchanging the source and the target of any of the rows leaves the
    aggregated edges unchanged. *)
Theorem one_edge_per_unordered_pair :
  (∀ rows, dom (Csv.combined_edges rows) = list_to_set (Csv.row_key <$> rows)
           ∧ size (Csv.combined_edges rows) ≤ length rows)
  ∧ (∀ idx, dom (Etl.combine idx)
            = list_to_set (Etl.event_key <$> Etl.sharing_events idx)
            ∧ size (Etl.combine idx) ≤ length (Etl.sharing_events idx))
  ∧ (∀ rows rows',
       Forall2 (λ r r', r' = r ∨ r' = Csv.swap r) rows rows' →
       Csv.combined_edges rows' = Csv.combined_edges rows).
Proof.
  split_and!.
  - intros rows.
    assert (dom (Csv.combined_edges rows)
            = (list_to_set (Csv.row_key <$> rows) : gset (pystr * pystr))) as Hdom.
    { apply set_eq. intros k.
      rewrite elem_of_dom, csv_edge_iff_row, elem_of_list_to_set, list_elem_of_fmap.
      split; intros (r & ? & ?); by exists r. }
    split; [done|].
    rewrite <-size_dom, Hdom, <-(length_fmap Csv.row_key). apply size_list_to_set_le.
  - intros idx.
    assert (dom (Etl.combine idx)
            = (list_to_set (Etl.event_key <$> Etl.sharing_events idx)
               : gset (pystr * pystr))) as Hdom.
    { apply set_eq. intros k.
      rewrite elem_of_dom, etl_edge_iff_event, elem_of_list_to_set, list_elem_of_fmap.
      split; intros (r & ? & ?); by exists r. }
    split; [done|].
    rewrite <-size_dom, Hdom, <-(length_fmap Etl.event_key). apply size_list_to_set_le.
  - intros rows rows' Hsw. unfold Csv.combined_edges.
    generalize (∅ : gmap (pystr * pystr) Csv.edge_info).
    induction Hsw as [|r r' rows rows' [->| ->] _ IH]; intros m; simpl; [done|..].
    + apply IH.
    + rewrite csv_add_row_swap. apply IH.
Qed.

Lemma one_edge_per_unordered_pair_witness :
  Csv.combined_edges (Csv.swap <$> Ex.rows) = Csv.combined_edges Ex.rows.
Proof.
  apply (proj2 (proj2 one_edge_per_unordered_pair)).
  apply Forall2_fmap_r, Forall_Forall2_diag, Forall_forall. auto.
Defined.

(** ** What an edge accumulates *)

Section fold_sets.
Context {V E X : Type} `{Countable X}.
Variable empty : V.
Variable key : E → pystr * pystr.
Variable upd : E → V → V.
Variable step : gmap (pystr * pystr) V → E → gmap (pystr * pystr) V.
Hypothesis step_insert :
  ∀ m e, step m e = <[key e := upd e (default empty (m !! key e))]> m.
Variable p : V → gset X.
Variable c : E → gset X.
Hypothesis p_upd : ∀ e i, p (upd e i) = c e ∪ p i.

(** A set kept by the entry of a key, when each event of that key adds its
    contribution to it, holds the contributions of the events of the key. *)
Lemma fold_set_spec evs m k x :
  x ∈ p (default empty (fold_left step evs m !! k))
  ↔ x ∈ p (default empty (m !! k)) ∨ ∃ e, e ∈ evs ∧ key e = k ∧ x ∈ c e.
Proof using step_insert p_upd.
  revert m. induction evs as [|e evs IH]; intros m; simpl.
  - split; [by left|]. intros [?|(e & ?%elem_of_nil & _)]; done.
  - rewrite IH, step_insert. destruct (decide (key e = k)) as [<-|Hne].
    + rewrite lookup_insert_eq. simpl. rewrite p_upd, elem_of_union. split.
      * intros [[?|?]|(e' & ? & ? & ?)]; [|by left|].
        -- right. exists e. split_and!; [left|done..].
        -- right. exists e'. split_and!; [by right|done..].
      * intros [?|(e' & [->|?]%elem_of_cons & ? & ?)]; [by left; right|by left; left|].
        right. by exists e'.
    + rewrite lookup_insert_ne by done. split.
      * intros [?|(e' & ? & ? & ?)]; [by left|].
        right. exists e'. split_and!; [by right|done..].
      * intros [?|(e' & [->|?]%elem_of_cons & ? & ?)]; [by left|done|].
        right. by exists e'.
Qed.
End fold_sets.

Lemma etl_values_of_update ct ev i :
  Etl.values_of ct (Etl.update_info ev i)
  = (if decide (ct ∈ Etl.conn_types ∧ Etl.ev_type ev = ct)
     then {[Etl.ev_value ev]} else ∅) ∪ Etl.values_of ct i.
Proof.
  rewrite etl_update_info_fields. unfold Etl.values_of, Etl.add_value. simpl.
  assert (∀ (a : gset pystr), ∅ ∪ a = a) as Hempty by (intros a; apply (left_id_L ∅ (∪))).
  assert (∀ t, t ∈ Etl.conn_types →
            (if decide (Etl.ev_type ev = t) then {[Etl.ev_value ev]} ∪ Etl.values_of t i
             else Etl.values_of t i)
            = (if decide (t ∈ Etl.conn_types ∧ Etl.ev_type ev = t)
               then {[Etl.ev_value ev]} else ∅) ∪ Etl.values_of t i) as Hknown.
  { intros t Ht. destruct (decide (Etl.ev_type ev = t)) as [Heq|Hne].
    - by rewrite decide_True.
    - rewrite decide_False by tauto. by rewrite Hempty. }
  destruct (decide (ct = Etl.COMPETENCY)) as [->|H1];
    [apply (Hknown Etl.COMPETENCY); by apply (bool_decide_unpack _)|].
  destruct (decide (ct = Etl.TECHNICAL_COMPETENCY)) as [->|H2];
    [apply (Hknown Etl.TECHNICAL_COMPETENCY); by apply (bool_decide_unpack _)|].
  destruct (decide (ct = Etl.IMPACT)) as [->|H3];
    [apply (Hknown Etl.IMPACT); by apply (bool_decide_unpack _)|].
  destruct (decide (ct = Etl.CITY)) as [->|H4];
    [apply (Hknown Etl.CITY); by apply (bool_decide_unpack _)|].
  destruct (decide (ct = Etl.COUNTRY)) as [->|H5];
    [apply (Hknown Etl.COUNTRY); by apply (bool_decide_unpack _)|].
  destruct (decide (ct = Etl.REGION)) as [->|H6];
    [apply (Hknown Etl.REGION); by apply (bool_decide_unpack _)|].
  destruct (decide (ct = Etl.COHORT)) as [->|H7];
    [apply (Hknown Etl.COHORT); by apply (bool_decide_unpack _)|].
  rewrite decide_False; [by rewrite Hempty|].
  intros [Hin _]. unfold Etl.conn_types, Etl.extractors in Hin. simpl in Hin.
  repeat (apply elem_of_cons in Hin as [?|Hin]; [done|]).
  by apply elem_of_nil in Hin.
Qed.

Lemma etl_add_event_insert m ev :
  Etl.add_event m ev
  = <[Etl.event_key ev :=
        Etl.update_info ev (default Etl.empty_info (m !! Etl.event_key ev))]> m.
Proof. done. Qed.

Lemma etl_types_spec idx k t :
  t ∈ Etl.types (default Etl.empty_info (Etl.combine idx !! k))
  ↔ ∃ ev, ev ∈ Etl.sharing_events idx ∧ Etl.event_key ev = k ∧ Etl.ev_type ev = t.
Proof.
  rewrite etl_combine_events.
  rewrite (fold_set_spec Etl.empty_info Etl.event_key Etl.update_info Etl.add_event
             etl_add_event_insert Etl.types (λ ev, {[Etl.ev_type ev]}));
    [|intros ev i; by rewrite etl_update_info_fields].
  rewrite lookup_empty. simpl. split.
  - intros [?%elem_of_empty|(ev & ? & ? & ->%elem_of_singleton)]; [done|]. by exists ev.
  - intros (ev & ? & ? & <-). right. exists ev. by rewrite elem_of_singleton.
Qed.

Lemma etl_connections_spec idx k c :
  c ∈ Etl.connections (default Etl.empty_info (Etl.combine idx !! k))
  ↔ ∃ ev, ev ∈ Etl.sharing_events idx ∧ Etl.event_key ev = k
      ∧ c = Etl.ev_type ev ++ str_of ": " ++ Etl.ev_value ev.
Proof.
  rewrite etl_combine_events.
  rewrite (fold_set_spec Etl.empty_info Etl.event_key Etl.update_info Etl.add_event
             etl_add_event_insert Etl.connections
             (λ ev, {[Etl.ev_type ev ++ str_of ": " ++ Etl.ev_value ev]}));
    [|intros ev i; by rewrite etl_update_info_fields].
  rewrite lookup_empty. simpl. split.
  - intros [?%elem_of_empty|(ev & ? & ? & ->%elem_of_singleton)]; [done|]. by exists ev.
  - intros (ev & ? & ? & ->). right. exists ev. by rewrite elem_of_singleton.
Qed.

Lemma etl_values_spec idx k ct v :
  v ∈ Etl.values_of ct (default Etl.empty_info (Etl.combine idx !! k))
  ↔ ct ∈ Etl.conn_types
    ∧ ∃ ev, ev ∈ Etl.sharing_events idx ∧ Etl.event_key ev = k
        ∧ Etl.ev_type ev = ct ∧ Etl.ev_value ev = v.
Proof.
  rewrite etl_combine_events.
  rewrite (fold_set_spec Etl.empty_info Etl.event_key Etl.update_info Etl.add_event
             etl_add_event_insert (Etl.values_of ct)
             (λ ev, if decide (ct ∈ Etl.conn_types ∧ Etl.ev_type ev = ct)
                    then {[Etl.ev_value ev]} else ∅));
    [|intros ev i; apply etl_values_of_update].
  rewrite lookup_empty. simpl. split.
  - intros [Hin|(ev & Hev & Hk & Hin)].
    + exfalso. unfold Etl.values_of in Hin. simpl in Hin.
      repeat case_decide; by apply elem_of_empty in Hin.
    + case_decide as Hc; [|by apply elem_of_empty in Hin].
      apply elem_of_singleton in Hin. destruct Hc. split; [done|]. by exists ev.
  - intros (Hct & ev & Hev & Hk & Ht & Hv). right. exists ev. split_and!; [done..|].
    rewrite decide_True by done. by apply elem_of_singleton.
Qed.

(** X9: in the Airtable pipeline an edge holds what the sharing events of
    its pair brought: its types are their types, its connections their
    "type: value" strings, and the values it keeps for a connection type are
    the values of the events of that type. *)
Theorem etl_edge_contents idx k info :
  Etl.combine idx !! k = Some info →
  (∀ t, t ∈ Etl.types info
        ↔ ∃ ev, ev ∈ Etl.sharing_events idx ∧ Etl.event_key ev = k
            ∧ Etl.ev_type ev = t)
  ∧ (∀ c, c ∈ Etl.connections info
          ↔ ∃ ev, ev ∈ Etl.sharing_events idx ∧ Etl.event_key ev = k
              ∧ c = Etl.ev_type ev ++ str_of ": " ++ Etl.ev_value ev)
  ∧ (∀ ct v, v ∈ Etl.values_of ct info
             ↔ ct ∈ Etl.conn_types
               ∧ ∃ ev, ev ∈ Etl.sharing_events idx ∧ Etl.event_key ev = k
                   ∧ Etl.ev_type ev = ct ∧ Etl.ev_value ev = v).
Proof.
  intros Hk. split_and!.
  - intros t. rewrite <-etl_types_spec. by rewrite Hk.
  - intros c. rewrite <-etl_connections_spec. by rewrite Hk.
  - intros ct v. rewrite <-etl_values_spec. by rewrite Hk.
Qed.

Lemma etl_edge_contents_witness :
  ∃ info, Etl.combine Ex.idx !! (Ex.A, Ex.B) = Some info
    ∧ str_of "DE - Berlin" ∈ Etl.values_of Etl.CITY info
    ∧ Etl.CITY ∈ Etl.types info.
Proof.
  destruct (proj2 (etl_edge_iff_event Ex.idx (Ex.A, Ex.B))) as [info Hk].
  { exists (Etl.Event Ex.A Ex.B Etl.COMPETENCY (str_of "ML")).
    split; [left|reflexivity]. }
  exists info. split; [exact Hk|].
  destruct (etl_edge_contents Ex.idx (Ex.A, Ex.B) info Hk) as (Ht & _ & Hv).
  assert (Etl.Event Ex.A Ex.B Etl.CITY (str_of "DE - Berlin") ∈ Etl.sharing_events Ex.idx)
    as Hin by (vm_compute; repeat constructor).
  split.
  - apply Hv. split; [apply (bool_decide_unpack _); vm_compute; exact I|].
    eexists. split; [exact Hin|]. split_and!; reflexivity.
  - apply Ht. eexists. split; [exact Hin|]. split; reflexivity.
Defined.

Lemma build_index_entry_type records key l :
  (key, l) ∈ Etl.build_index records → key.1 ∈ Etl.conn_types.
Proof.
  intros Hin.
  assert (l ≠ []) as Hl.
  { assert (Forall (λ e : pystr * pystr * list pystr, e.2 ≠ [])
              (Etl.build_index records)) as Hne.
    { apply (build_index_invariant
               (λ idx, Forall (λ e : pystr * pystr * list pystr, e.2 ≠ []) idx));
        [constructor|apply index_append_nonempty]. }
    rewrite Forall_forall in Hne. apply (Hne _ Hin). }
  destruct l as [|n l]; [done|].
  assert (Etl.indexed (Etl.build_index records) key n) as Hn.
  { exists (n :: l). split; [done|left]. }
  apply indexed_build_index in Hn as (_ & _ & _ & _ & e & He & <- & _).
  apply list_elem_of_fmap. by exists e.
Qed.

(** X10: in the Airtable pipeline the flag of a connection type is set on an
    edge exactly when the edge keeps a value of that type; the types of an
    edge are among the seven connection types, and at least one flag is
    set. *)
Theorem etl_flags_agree_with_values records k info :
  Etl.combined_edges records !! k = Some info →
  (∀ ct, ct ∈ Etl.conn_types →
         Etl.is_type ct info = Etl.nonempty_set (Etl.values_of ct info))
  ∧ (∀ t, t ∈ Etl.types info → t ∈ Etl.conn_types)
  ∧ ∃ ct, ct ∈ Etl.conn_types ∧ Etl.is_type ct info = true.
Proof.
  intros Hk. unfold Etl.combined_edges in Hk.
  assert (∀ t, t ∈ Etl.types info → t ∈ Etl.conn_types) as Hknown.
  { intros t Ht.
    pose proof (proj1 (etl_types_spec (Etl.build_index records) k t)) as Hspec.
    rewrite Hk in Hspec. destruct (Hspec Ht) as (ev & Hev & _ & <-).
    apply list_elem_of_bind in Hev as ([[ct cv] l] & Hev & Hentry).
    apply elem_of_pair_events in Hev as (_ & -> & _).
    apply (build_index_entry_type records (ct, cv) l Hentry). }
  split_and!; [|done|].
  - intros ct Hct. unfold Etl.is_type, Etl.nonempty_set.
    pose proof (etl_types_spec (Etl.build_index records) k ct) as Ht.
    rewrite Hk in Ht. simpl in Ht.
    case_bool_decide as Hin; case_bool_decide as Hempty; simpl; try done.
    + apply Ht in Hin as (ev & Hev & Hkey & Htype).
      assert (Etl.ev_value ev ∈ Etl.values_of ct info) as Hv.
      { pose proof (etl_values_spec (Etl.build_index records) k ct (Etl.ev_value ev))
          as Hvs. rewrite Hk in Hvs. apply Hvs. split; [done|]. by exists ev. }
      rewrite Hempty in Hv. by apply elem_of_empty in Hv.
    + apply set_choose_L in Hempty as [v Hv].
      pose proof (etl_values_spec (Etl.build_index records) k ct v) as Hvs.
      rewrite Hk in Hvs. apply Hvs in Hv as (_ & ev & Hev & Hkey & Htype & _).
      destruct Hin. apply Ht. by exists ev.
  - pose proof (etl_combine_ok (Etl.build_index records) k info Hk) as [_ Hsize].
    destruct (size_pos_elem_of (Etl.types info)) as [t Ht]; [lia|].
    exists t. split; [by apply Hknown|]. by apply bool_decide_eq_true.
Qed.

Lemma etl_flags_agree_with_values_witness :
  ∃ info, Etl.combined_edges Ex.records !! (Ex.A, Ex.B) = Some info
    ∧ Etl.is_type Etl.CITY info = Etl.nonempty_set (Etl.cities info).
Proof.
  destruct (proj2 (etl_edge_iff_event (Etl.build_index Ex.records) (Ex.A, Ex.B)))
    as [info Hk].
  { exists (Etl.Event Ex.A Ex.B Etl.COMPETENCY (str_of "ML")).
    split; [left|reflexivity]. }
  exists info. split; [exact Hk|].
  destruct (etl_flags_agree_with_values Ex.records (Ex.A, Ex.B) info Hk) as (Hf & _).
  apply (Hf Etl.CITY). apply (bool_decide_unpack _). vm_compute. exact I.
Defined.

Lemma csv_add_row_insert m r :
  Csv.add_row m r
  = <[Csv.row_key r :=
        (λ r i, Csv.EdgeInfo (Csv.weight i + 1) ({[Csv.Type_ r]} ∪ Csv.types i)
                  ({[Csv.Connection_full r]} ∪ Csv.connections i))
          r (default Csv.empty_info (m !! Csv.row_key r))]> m.
Proof. done. Qed.

(** X11: in the CSV pipeline an edge holds what the rows of its pair
    brought: its types are the types of these rows and its connections their
    connection cells, and the flag of a type is set exactly when one of
    these rows is of that type. *)
Theorem csv_edge_contents rows k info :
  Csv.combined_edges rows !! k = Some info →
  (∀ t, t ∈ Csv.types info
        ↔ ∃ r, r ∈ rows ∧ Csv.row_key r = k ∧ Csv.Type_ r = t)
  ∧ (∀ c, c ∈ Csv.connections info
          ↔ ∃ r, r ∈ rows ∧ Csv.row_key r = k ∧ Csv.Connection_full r = c)
  ∧ (∀ t, Csv.is_type t info = true
          ↔ ∃ r, r ∈ rows ∧ Csv.row_key r = k ∧ Csv.Type_ r = t).
Proof.
  intros Hk.
  assert (∀ t, t ∈ Csv.types info
               ↔ ∃ r, r ∈ rows ∧ Csv.row_key r = k ∧ Csv.Type_ r = t) as Htypes.
  { intros t.
    pose proof (fold_set_spec Csv.empty_info Csv.row_key _ Csv.add_row
                  csv_add_row_insert Csv.types (λ r, {[Csv.Type_ r]})
                  (λ r i, eq_refl) rows ∅ k t) as Hs.
    fold (Csv.combined_edges rows) in Hs. rewrite Hk, lookup_empty in Hs.
    simpl in Hs. rewrite Hs. split.
    - intros [?%elem_of_empty|(r & ? & ? & ->%elem_of_singleton)]; [done|]. by exists r.
    - intros (r & ? & ? & <-). right. exists r. by rewrite elem_of_singleton. }
  split_and!; [done| |].
  - intros c.
    pose proof (fold_set_spec Csv.empty_info Csv.row_key _ Csv.add_row
                  csv_add_row_insert Csv.connections (λ r, {[Csv.Connection_full r]})
                  (λ r i, eq_refl) rows ∅ k c) as Hs.
    fold (Csv.combined_edges rows) in Hs. rewrite Hk, lookup_empty in Hs.
    simpl in Hs. rewrite Hs. split.
    + intros [?%elem_of_empty|(r & ? & ? & ->%elem_of_singleton)]; [done|]. by exists r.
    + intros (r & ? & ? & <-). right. exists r. by rewrite elem_of_singleton.
  - intros t. unfold Csv.is_type. by rewrite bool_decide_eq_true.
Qed.

Lemma csv_edge_contents_witness :
  ∃ info, Csv.combined_edges Ex.rows !! (Ex.A, Ex.B) = Some info
    ∧ Csv.is_type (str_of "city") info = true.
Proof.
  destruct (proj2 (csv_edge_iff_row Ex.rows (Ex.A, Ex.B))) as [info Hk].
  { eexists. split; [left|reflexivity]. }
  exists info. split; [exact Hk|].
  destruct (csv_edge_contents Ex.rows (Ex.A, Ex.B) info Hk) as (_ & _ & Hf).
  apply Hf. eexists. split; [right; right; left|]. split; reflexivity.
Defined.

(** ** The order of the input *)

(** X12: the aggregated edges do not depend on the order in which the
    sharing events are folded in: not on the order of the rows in the CSV
    pipeline, nor on the order of the entries of the index or of the events
    in the Airtable pipeline, whose detailed labels are therefore the same
    too. *)
Theorem aggregation_order_independent :
  (∀ rows1 rows2, rows1 ≡ₚ rows2 →
     Csv.combined_edges rows1 = Csv.combined_edges rows2)
  ∧ (∀ idx1 idx2, Etl.sharing_events idx1 ≡ₚ Etl.sharing_events idx2 →
       Etl.combine idx1 = Etl.combine idx2)
  ∧ (∀ idx1 idx2 k, idx1 ≡ₚ idx2 →
       Etl.label_detailed <$> Etl.combine idx1 !! k
       = Etl.label_detailed <$> Etl.combine idx2 !! k).
Proof.
  split_and!.
  - apply csv_combined_edges_Permutation.
  - apply etl_combine_Permutation.
  - intros idx1 idx2 k Hp. rewrite (etl_combine_Permutation idx1 idx2); [done|].
    unfold Etl.sharing_events. by rewrite Hp.
Qed.

Lemma aggregation_order_independent_witness :
  Csv.combined_edges (reverse Ex.rows) = Csv.combined_edges Ex.rows.
Proof.
  apply (proj1 aggregation_order_independent). apply reverse_Permutation.
Defined.

(** ** Deduplicating twice *)

Lemma dedupe_go_fixed lower seen l :
  NoDup (Csv.norm_key lower <$> l) →
  (∀ s, s ∈ l → Csv.norm_key lower s ≠ [] ∧ Csv.norm_key lower s ∉ seen) →
  Csv.dedupe_go lower seen l = l.
Proof.
  revert seen. induction l as [|x l IH]; intros seen Hnd Hl; [done|].
  rewrite fmap_cons in Hnd. apply NoDup_cons in Hnd as [Hx Hnd].
  rewrite dedupe_go_cons, decide_True by (apply Hl; left).
  f_equal. apply IH; [done|]. intros s Hs.
  destruct (Hl s) as [Hk Hseen]; [by right|]. split; [done|].
  intros [Heq%elem_of_singleton|?]%elem_of_union; [|done].
  apply Hx. rewrite <-Heq. by apply list_elem_of_fmap_2.
Qed.

(** X13: [dedupe_preserve_order] changes nothing in a list it has already
    deduplicated, and never returns more values than it was given. *)
Theorem dedupe_idempotent lower seq :
  Csv.dedupe_preserve_order lower (Csv.dedupe_preserve_order lower seq)
  = Csv.dedupe_preserve_order lower seq
  ∧ length (Csv.dedupe_preserve_order lower seq) ≤ length seq.
Proof.
  unfold Csv.dedupe_preserve_order. split.
  - apply dedupe_go_fixed; [apply dedupe_go_NoDup|].
    intros s (_ & Hk & _)%dedupe_go_elem. split; [done|]. apply not_elem_of_empty.
  - apply sublist_length, dedupe_go_sublist.
Qed.

(** ** What the label of the CSV pipeline leaves out *)

Section other_facts.
Variable lower : pystr → pystr.

(** Two states of [parsed] that differ at most in the list of "other". *)
Let agree (p1 p2 : gmap pystr (list pystr)) : Prop :=
  dom p1 = dom Csv.parsed_init ∧ dom p2 = dom Csv.parsed_init
  ∧ ∀ k, k ≠ Csv.OTHER → p1 !!! k = p2 !!! k.

Lemma parse_conn_agree p1 p2 conn :
  agree p1 p2 → agree (Csv.parse_conn lower p1 conn) (Csv.parse_conn lower p2 conn).
Proof using Type.
  intros (Hd1 & Hd2 & Hk). split_and!; [by apply parse_conn_dom..|].
  pose proof (parse_conn_filed lower p1 conn Hd1) as Hf1.
  pose proof (parse_conn_filed lower p2 conn Hd2) as Hf2.
  destruct (Csv.filed_as lower conn) as [k x].
  destruct Hf1 as [-> _], Hf2 as [-> _]. intros k' Hk'.
  destruct (decide (k = k')) as [->|Hne].
  - rewrite !lookup_total_insert_eq. by rewrite Hk.
  - rewrite !lookup_total_insert_ne by done. by apply Hk.
Qed.

Lemma parse_conn_other p conn :
  dom p = dom Csv.parsed_init → (Csv.filed_as lower conn).1 = Csv.OTHER →
  agree (Csv.parse_conn lower p conn) p.
Proof using Type.
  intros Hd Ho. split_and!; [by apply parse_conn_dom|done|].
  pose proof (parse_conn_filed lower p conn Hd) as Hf.
  destruct (Csv.filed_as lower conn) as [k x]. simpl in Ho. subst k.
  destruct Hf as [-> _]. intros k' Hk'. by rewrite lookup_total_insert_ne.
Qed.

Lemma parse_fold_agree conns p1 p2 :
  agree p1 p2 →
  agree (fold_left (Csv.parse_conn lower) conns p1)
        (fold_left (Csv.parse_conn lower) conns p2).
Proof using Type.
  revert p1 p2. induction conns as [|c conns IH]; intros p1 p2 Ha; simpl; [done|].
  by apply IH, parse_conn_agree.
Qed.

Lemma agree_trans p1 p2 p3 : agree p1 p2 → agree p2 p3 → agree p1 p3.
Proof using Type.
  intros (Hd1 & _ & H12) (_ & Hd3 & H23). split_and!; [done..|].
  intros k Hk. by rewrite H12, H23.
Qed.

(** The parse of the connections and the parse of those among them that
    are filed under a known category differ at most in the list of
    "other". *)
Lemma parse_fold_known conns p1 p2 :
  agree p1 p2 →
  agree (fold_left (Csv.parse_conn lower) conns p1)
        (fold_left (Csv.parse_conn lower)
           (filter (λ c, (Csv.filed_as lower c).1 ≠ Csv.OTHER) conns) p2).
Proof using Type.
  revert p1 p2. induction conns as [|c conns IH]; intros p1 p2 Ha; [done|].
  rewrite filter_cons. simpl fold_left at 1.
  destruct (decide ((Csv.filed_as lower c).1 ≠ Csv.OTHER)) as [Hknown|Hother].
  - simpl. by apply IH, parse_conn_agree.
  - apply IH. apply (agree_trans _ p1); [|done].
    apply parse_conn_other; [apply Ha|].
    destruct (decide ((Csv.filed_as lower c).1 = Csv.OTHER)); tauto.
Qed.

Lemma label_agree source target conns1 conns2 :
  agree (Csv.parse lower conns1) (Csv.parse lower conns2) →
  Csv.label_detailed lower source target conns1
  = Csv.label_detailed lower source target conns2.
Proof using Type.
  intros (_ & _ & Hk).
  unfold Csv.label_detailed, Csv.label_joined, Csv.final_parts,
    Csv.multi_str, Csv.first_location.
  by rewrite !Hk.
Qed.

(** The detailed label is computed from the connections of the known
    categories alone. *)
Lemma label_of_known source target conns :
  Csv.label_detailed lower source target conns
  = Csv.label_detailed lower source target
      (filter (λ c, (Csv.filed_as lower c).1 ≠ Csv.OTHER) conns).
Proof using Type.
  apply label_agree, parse_fold_known. by split_and!.
Qed.

Lemma filter_known_others (conns : list Csv.cell) :
  (∀ c, c ∈ conns → (Csv.filed_as lower c).1 = Csv.OTHER) →
  filter (λ c, (Csv.filed_as lower c).1 ≠ Csv.OTHER) conns = [].
Proof using Type.
  induction conns as [|c conns IH]; intros Ho; [done|].
  rewrite filter_cons, decide_False.
  - apply IH. intros c' Hc'. apply Ho. by right.
  - intros Hne. apply Hne, Ho. left.
Qed.

Lemma filter_known_within (conns : list Csv.cell) (kept others : gset Csv.cell) :
  (∀ c, c ∈ conns → c ∈ kept ∪ others) →
  (∀ c, c ∈ others → (Csv.filed_as lower c).1 = Csv.OTHER) →
  filter (λ c, (Csv.filed_as lower c).1 ≠ Csv.OTHER) (filter (λ c, c ∈ kept) conns)
  = filter (λ c, (Csv.filed_as lower c).1 ≠ Csv.OTHER) conns.
Proof using Type.
  intros Hin Ho. induction conns as [|c conns IH]; [done|].
  assert (filter (λ c, (Csv.filed_as lower c).1 ≠ Csv.OTHER)
            (filter (λ c, c ∈ kept) conns)
          = filter (λ c, (Csv.filed_as lower c).1 ≠ Csv.OTHER) conns) as IH'.
  { apply IH. intros c' Hc'. apply Hin. by right. }
  rewrite (filter_cons (λ c, c ∈ kept)).
  destruct (decide (c ∈ kept)) as [Hk|Hk].
  - rewrite !filter_cons, IH'. done.
  - rewrite IH', filter_cons, decide_False; [done|].
    intros Hne. apply Hne, Ho.
    assert (c ∈ kept ∪ others) as [?|?]%elem_of_union by (apply Hin; left); done.
Qed.

Lemma final_parts_names source target :
  Csv.final_parts lower source target []
  = Csv.dedupe_go lower ∅
      (filter (λ tok, tok ≠ []) [source; if decide (target = source) then [] else target]).
Proof using Type.
  unfold Csv.final_parts. rewrite csv_raw_parts_order.
  change (Csv.multi_str lower (Csv.parse lower []) (str_of "competency")) with ([] : pystr).
  change (Csv.multi_str lower (Csv.parse lower []) (str_of "impact")) with ([] : pystr).
  change (Csv.multi_str lower (Csv.parse lower []) (str_of "target_market")) with ([] : pystr).
  change (Csv.first_location (Csv.parse lower []) (str_of "city")) with ([] : pystr).
  change (Csv.first_location (Csv.parse lower []) (str_of "country")) with ([] : pystr).
  reflexivity.
Qed.

Lemma connections_column_strings (conns : gset Csv.cell) :
  is_Some (Csv.connections_column conns) ↔ ∀ c, c ∈ conns → ∃ s, c = Csv.CellStr s.
Proof using Type.
  unfold Csv.connections_column. rewrite fmap_is_Some, mapM_is_Some, Forall_forall.
  split.
  - intros Hall c Hc. destruct (Hall c) as [s Hs]; [by apply elem_of_elements|].
    destruct c as [s'|r]; [by exists s'|done].
  - intros Hall c Hc%elem_of_elements. destruct (Hall c Hc) as [s ->]. by exists s.
Qed.

Lemma emit_edge_Some iter key info e col :
  Csv.emit_edge lower iter key info = Some (e, col) →
  e = Csv.make_edge lower iter key info
  ∧ ∀ c, c ∈ Csv.connections info → ∃ s, c = Csv.CellStr s.
Proof using Type.
  unfold Csv.emit_edge. intros Hemit.
  destruct (Csv.connections_column (Csv.connections info)) as [col'|] eqn:Hcol; [|done].
  injection Hemit as <- _. split; [done|].
  apply connections_column_strings. by rewrite Hcol.
Qed.

Lemma emit_edge_strings iter key info :
  (∀ c, c ∈ Csv.connections info → ∃ s, c = Csv.CellStr s) →
  ∃ col, Csv.emit_edge lower iter key info
         = Some (Csv.make_edge lower iter key info, col).
Proof using Type.
  intros [col Hcol]%connections_column_strings. exists col.
  unfold Csv.emit_edge. by rewrite Hcol.
Qed.

(** X14: of an edge the CSV pipeline emits (every connection of it is a
    string) the detailed label is computed from the connections of the five
    known categories alone: it is the label of the iterated connections
    without those filed under "other", the label of the two names when all
    are filed there.  Over the orders in which the set of connections may be
    iterated, an edge has the same possible labels with and without
    connections that are strings filed under "other". *)
Theorem other_connections_not_in_label :
  (∀ iter key info e col,
     Csv.emit_edge lower iter key info = Some (e, col) →
     let conns := iter (Csv.connections info) in
     let known := filter (λ c, (Csv.filed_as lower c).1 ≠ Csv.OTHER) conns in
     (∀ c, c ∈ Csv.connections info → ∃ s, c = Csv.CellStr s)
     ∧ Csv.out_LabelDetailed e = Csv.label_detailed lower key.1 key.2 known
     ∧ ((∀ c, c ∈ conns → (Csv.filed_as lower c).1 = Csv.OTHER) →
        Csv.out_LabelDetailed e
        = Csv.truncate
            (join (str_of ", ")
               (Csv.dedupe_go lower ∅
                  (filter (λ tok, tok ≠ [])
                     [key.1; if decide (key.2 = key.1) then [] else key.2])))))
  ∧ (∀ key info1 info2 (others : gset Csv.cell),
       (∀ c, c ∈ others →
          (∃ s, c = Csv.CellStr s) ∧ (Csv.filed_as lower c).1 = Csv.OTHER) →
       Csv.connections info1 = Csv.connections info2 ∪ others →
       ∀ label,
         (∃ iter e col, iteration_order iter
            ∧ Csv.emit_edge lower iter key info1 = Some (e, col)
            ∧ Csv.out_LabelDetailed e = label)
         ↔ (∃ iter e col, iteration_order iter
              ∧ Csv.emit_edge lower iter key info2 = Some (e, col)
              ∧ Csv.out_LabelDetailed e = label)).
Proof using Type.
  split.
  - intros iter key info e col Hemit conns known.
    apply emit_edge_Some in Hemit as [-> Hstr].
    split_and!; [done|apply label_of_known|].
    intros Hall. simpl. rewrite label_of_known.
    fold conns. rewrite (filter_known_others conns Hall).
    unfold Csv.label_detailed, Csv.label_joined. by rewrite final_parts_names.
  - intros key info1 info2 others Hothers Hconn label.
    set (kept := Csv.connections info2) in *.
    split.
    + intros (iter & e & col & Horder & Hemit & <-).
      apply emit_edge_Some in Hemit as [-> Hstr].
      set (iter2 := λ s : gset Csv.cell,
             if decide (s = kept)
             then filter (λ c, c ∈ kept) (iter (kept ∪ others)) else elements s).
      destruct (emit_edge_strings iter2 key info2) as [col2 Hemit2].
      { intros c Hc. apply Hstr. rewrite Hconn. apply elem_of_union. by left. }
      exists iter2, (Csv.make_edge lower iter2 key info2), col2.
      split_and!; [|exact Hemit2|].
      * intros s. unfold iter2. destruct (decide (s = kept)) as [->|?]; [|done].
        apply NoDup_Permutation.
        -- apply NoDup_filter. rewrite (Horder (kept ∪ others)). apply NoDup_elements.
        -- apply NoDup_elements.
        -- intros c. rewrite list_elem_of_filter, (Horder (kept ∪ others)).
           rewrite !elem_of_elements, elem_of_union. tauto.
      * simpl. fold kept. rewrite Hconn. unfold iter2. rewrite decide_True by done.
        rewrite label_of_known, (label_of_known _ _ (iter (kept ∪ others))).
        f_equal. apply (filter_known_within _ kept others).
        -- intros c. rewrite (Horder (kept ∪ others)). apply elem_of_elements.
        -- intros c Hc. by destruct (Hothers c Hc).
    + intros (iter & e & col & Horder & Hemit & <-).
      apply emit_edge_Some in Hemit as [-> Hstr].
      set (iter1 := λ s : gset Csv.cell,
             if decide (s = kept ∪ others)
             then iter kept ++ elements (others ∖ kept) else elements s).
      destruct (emit_edge_strings iter1 key info1) as [col1 Hemit1].
      { intros c. rewrite Hconn. intros [Hc|Hc]%elem_of_union.
        - by apply Hstr.
        - by destruct (Hothers c Hc). }
      exists iter1, (Csv.make_edge lower iter1 key info1), col1.
      split_and!; [|exact Hemit1|].
      * intros s. unfold iter1. destruct (decide (s = kept ∪ others)) as [->|?]; [|done].
        apply NoDup_Permutation.
        -- apply NoDup_app. split_and!.
           ++ rewrite (Horder kept). apply NoDup_elements.
           ++ intros c. rewrite (Horder kept), !elem_of_elements, elem_of_difference.
              tauto.
           ++ apply NoDup_elements.
        -- apply NoDup_elements.
        -- intros c. rewrite elem_of_app, (Horder kept), !elem_of_elements.
           rewrite elem_of_difference, elem_of_union.
           destruct (decide (c ∈ kept)); tauto.
      * simpl. fold kept. rewrite Hconn. unfold iter1. rewrite decide_True by done.
        rewrite label_of_known, (label_of_known _ _ (iter kept)).
        f_equal. rewrite filter_app, (filter_known_others (elements _)).
        -- apply app_nil_r.
        -- intros c [Hc _]%elem_of_elements%elem_of_difference.
           by destruct (Hothers c Hc).
Qed.
End other_facts.

(** An emitted edge with a connection of an unknown category, whose label
    shows the competency only; an edge with a connection that is no string
    is not emitted. *)
Lemma other_connections_not_in_label_witness :
  Csv.emit_edge ascii_lower elements (Ex.A, Ex.B) Ex.other_info
  = Some (Csv.WeightedEdge Ex.A Ex.B 2 (str_of "competency;foo") (str_of "A, B, ML"),
          str_of "competency: ML;foo: bar")
  ∧ Csv.label_detailed ascii_lower Ex.A Ex.B [Csv.CellStr (str_of "competency: ML")]
    = str_of "A, B, ML"
  ∧ Csv.emit_edge ascii_lower elements (Ex.A, Ex.B) Ex.nan_info = None.
Proof.
  assert (Csv.emit_edge ascii_lower elements (Ex.A, Ex.B) Ex.other_info
          = Some (Csv.WeightedEdge Ex.A Ex.B 2 (str_of "competency;foo") (str_of "A, B, ML"),
                  str_of "competency: ML;foo: bar")) as Hemit
    by (vm_compute; reflexivity).
  split; [exact Hemit|]. split; [|vm_compute; reflexivity].
  destruct (proj1 (other_connections_not_in_label ascii_lower) _ _ _ _ _ Hemit)
    as (_ & Hlabel & _).
  etrans; [|exact Hlabel]. vm_compute. reflexivity.
Defined.

(** ** Fetching the records *)

Lemma truthy_spec v : truthy v = true ↔ ∃ s, v = Some s ∧ s ≠ [].
Proof.
  destruct v as [[|c s]|]; simpl.
  - split; [done|]. by intros (s & [= <-] & ?).
  - split; [|done]. intros _. by exists (c :: s).
  - split; [done|]. by intros (s & [=] & _).
Qed.

Lemma fetch_loop_success mid recs last rest all offset :
  Forall (λ p, p.2 ≠ []) mid → truthy last = false →
  Fetch.fetch_loop (Fetch.pages mid ++ Fetch.Page recs last :: rest) all offset
  = (Some (all ++ Fetch.records_of mid ++ default [] recs),
     offset :: Fetch.offsets_of mid).
Proof.
  intros Hmid Hlast. revert all offset.
  induction Hmid as [|[r o] mid Ho Hmid IH]; intros all offset; simpl.
  - by rewrite Hlast.
  - destruct o as [|c o]; [done|]. simpl. rewrite IH.
    unfold Fetch.records_of. simpl. by rewrite <-!app_assoc.
Qed.

Lemma fetch_loop_failure mid rest all offset :
  Forall (λ p, p.2 ≠ []) mid →
  Fetch.fetch_loop (Fetch.pages mid ++ Fetch.Failed :: rest) all offset
  = (Some [], offset :: Fetch.offsets_of mid).
Proof.
  intros Hmid. revert all offset.
  induction Hmid as [|[r o] mid Ho Hmid IH]; intros all offset; simpl; [done|].
  destruct o as [|c o]; [done|]. simpl. by rewrite IH.
Qed.

Lemma main_env_ok_spec e responses :
  truthy (Fetch.AIRTABLE_TOKEN e) = true →
  truthy (Fetch.AIRTABLE_BASE_ID e) = true →
  truthy (Fetch.AIRTABLE_TABLE_ID e) = true →
  Fetch.main e responses
  = match (Fetch.fetch_all_records responses).1 with
    | None => Fetch.Waiting
    | Some [] => Fetch.NoRecords
    | Some records =>
        Fetch.Exported (Fetch.export_json (Etl.build_nodes records)
                          (Etl.combined_edges records))
    end.
Proof. intros H1 H2 H3. unfold Fetch.main. by rewrite H1, H2, H3. Qed.

(** X15: when every page but the last names a next page and no request
    fails, [fetch_all_records] returns the records of all the pages in
    order, having sent one request without offset and then one for each
    offset it was given; it reads no answer after the last page.  With the
    three environment variables set and at least one record, [main] then
    exports the nodes and edges of these records, and their numbers. *)
Theorem fetch_all_pages mid recs last rest :
  Forall (λ p, p.2 ≠ []) mid → truthy last = false →
  let responses := Fetch.pages mid ++ Fetch.Page recs last :: rest in
  let records := Fetch.records_of mid ++ default [] recs in
  Fetch.fetch_all_records responses = (Some records, None :: Fetch.offsets_of mid)
  ∧ ∀ e, truthy (Fetch.AIRTABLE_TOKEN e) = true →
         truthy (Fetch.AIRTABLE_BASE_ID e) = true →
         truthy (Fetch.AIRTABLE_TABLE_ID e) = true →
         records ≠ [] →
         ∃ data, Fetch.main e responses = Fetch.Exported data
           ∧ Fetch.nodes data = Etl.build_nodes records
           ∧ Fetch.edges data = Etl.combined_edges records
           ∧ Fetch.total_nodes data = length (Etl.build_nodes records)
           ∧ Fetch.total_edges data = size (Etl.combined_edges records).
Proof.
  intros Hmid Hlast responses records.
  assert (Fetch.fetch_all_records responses = (Some records, None :: Fetch.offsets_of mid))
    as Hfetch by by apply fetch_loop_success.
  split; [done|]. intros e H1 H2 H3 Hne.
  rewrite main_env_ok_spec, Hfetch by done. simpl.
  destruct records as [|r records']; [done|]. by eexists.
Qed.

Lemma fetch_all_pages_witness :
  Fetch.fetch_all_records
    (Fetch.pages Ex.two_pages ++ Fetch.Page (Some [Etl.Record_ (Some Ex.C) ∅]) None :: [])
  = (Some [Etl.Record_ (Some Ex.A) ∅; Etl.Record_ (Some Ex.B) ∅; Etl.Record_ (Some Ex.C) ∅],
     [None; Some (str_of "itr1"); Some (str_of "itr2")]).
Proof.
  apply (fetch_all_pages Ex.two_pages (Some [Etl.Record_ (Some Ex.C) ∅]) None []).
  - repeat constructor; by intros [=].
  - reflexivity.
Defined.

(** X16: when a request fails, [fetch_all_records] returns the empty list,
    whatever pages it was given before, and [main] exports nothing; nor does
    it export when an environment variable is missing or empty, or when the
    table has no record. *)
Theorem failed_request_exports_nothing mid rest e :
  Forall (λ p, p.2 ≠ []) mid →
  (Fetch.fetch_all_records (Fetch.pages mid ++ Fetch.Failed :: rest)).1 = Some []
  ∧ (∀ data, Fetch.main e (Fetch.pages mid ++ Fetch.Failed :: rest)
             ≠ Fetch.Exported data)
  ∧ (∀ last data, truthy last = false →
       Fetch.main e (Fetch.Page None last :: rest) ≠ Fetch.Exported data
       ∧ Fetch.main e (Fetch.Page (Some []) last :: rest) ≠ Fetch.Exported data)
  ∧ (∀ responses,
       truthy (Fetch.AIRTABLE_TOKEN e) && truthy (Fetch.AIRTABLE_BASE_ID e)
       && (truthy (Fetch.AIRTABLE_TABLE_NAME e) || truthy (Fetch.AIRTABLE_TABLE_ID_var e))
       = false →
       Fetch.main e responses = Fetch.MissingEnv).
Proof.
  intros Hmid.
  assert (Fetch.fetch_all_records (Fetch.pages mid ++ Fetch.Failed :: rest)
          = (Some [], None :: Fetch.offsets_of mid)) as Hfetch
    by by apply fetch_loop_failure.
  split_and!.
  - by rewrite Hfetch.
  - intros data. unfold Fetch.main. rewrite Hfetch. simpl. by case_match.
  - intros last data Hlast. unfold Fetch.main, Fetch.fetch_all_records. simpl.
    rewrite Hlast. simpl. split; by case_match.
  - intros responses Henv. unfold Fetch.main, Fetch.AIRTABLE_TABLE_ID.
    destruct (truthy (Fetch.AIRTABLE_TOKEN e)), (truthy (Fetch.AIRTABLE_BASE_ID e)),
      (truthy (Fetch.AIRTABLE_TABLE_NAME e)) eqn:Hname; simpl in *; try done.
    by rewrite Henv.
Qed.

Lemma failed_request_exports_nothing_witness :
  (Fetch.fetch_all_records (Fetch.pages Ex.two_pages ++ Fetch.Failed :: [])).1 = Some []
  ∧ Fetch.main Ex.env_ok (Fetch.pages Ex.two_pages ++ Fetch.Failed :: []) = Fetch.NoRecords.
Proof.
  split.
  - apply (failed_request_exports_nothing Ex.two_pages [] Ex.env_ok).
    repeat constructor; by intros [=].
  - reflexivity.
Defined.

(** ** Normalising a location *)

Lemma startswith_length pre s : startswith pre s = true → length pre ≤ length s.
Proof. intros [r ->]%startswith_spec. rewrite length_app. lia. Qed.

Lemma replace_go_length old new skip s :
  length new ≤ length old → old ≠ [] → skip ≤ length s →
  length (replace_go old new skip s) + skip ≤ length s.
Proof.
  intros Hnew Hold. revert skip.
  induction s as [|c s IH]; intros skip Hskip; simpl in *; [lia|].
  destruct skip as [|k].
  - destruct (startswith old (c :: s)) eqn:Hs.
    + apply startswith_length in Hs. simpl in Hs.
      rewrite length_app.
      assert (0 < length old) by (destruct old; simpl; [done|lia]).
      specialize (IH (length old - 1)). lia.
    + simpl. specialize (IH 0). lia.
  - specialize (IH k). lia.
Qed.

Lemma replace_length old new s :
  length new ≤ length old → old ≠ [] → length (replace old new s) ≤ length s.
Proof.
  intros Hnew Hold. pose proof (replace_go_length old new 0 s Hnew Hold). unfold replace. lia.
Qed.

Lemma replace_absent old new s :
  (∀ a b, s ≠ a ++ old ++ b) → replace old new s = s.
Proof.
  unfold replace. induction s as [|c s IH]; intros Habs; simpl; [done|].
  destruct (startswith old (c :: s)) eqn:Hs.
  - apply startswith_spec in Hs as [r Hr]. by destruct (Habs [] r).
  - f_equal. apply IH. intros a b ->. by destruct (Habs (c :: a) b).
Qed.

Lemma lstrip_by_length p s : length (lstrip_by p s) ≤ length s.
Proof. induction s as [|c s IH]; simpl; [done|]. destruct (p c); simpl; lia. Qed.

Lemma strip_length s : length (strip s) ≤ length s.
Proof.
  unfold strip. etrans; [apply rstrip_by_length|apply lstrip_by_length].
Qed.

Lemma replace_dashes_spec s :
  length (replace_dashes s) ≤ length s
  ∧ strip (replace_dashes s) = replace_dashes s
  ∧ ((∀ a b, s ≠ a ++ str_of " - " ++ b) →
     (∀ a b, s ≠ a ++ [SPACE; EN_DASH; SPACE] ++ b) →
     replace_dashes s = strip s).
Proof.
  unfold replace_dashes. split_and!.
  - etrans; [apply strip_length|].
    etrans; [apply replace_length; [simpl; lia|done]|].
    apply replace_length; [simpl; lia|done].
  - apply strip_idemp.
  - intros H1 H2. rewrite (replace_absent (str_of " - ")) by done.
    by rewrite replace_absent.
Qed.

(** X17: normalising a location never makes it longer and gives a trimmed
    string, the empty string for the empty string; a location in which
    neither " - " nor " – " occurs is only trimmed.  The same holds of the
    normalisation of the CSV pipeline. *)
Theorem normalize_location_spec s :
  length (Etl.normalize_location s) ≤ length s
  ∧ strip (Etl.normalize_location s) = Etl.normalize_location s
  ∧ Etl.normalize_location [] = []
  ∧ ((∀ a b, s ≠ a ++ str_of " - " ++ b) →
     (∀ a b, s ≠ a ++ [SPACE; EN_DASH; SPACE] ++ b) →
     Etl.normalize_location s = strip s ∧ Csv.norm_location s = strip s)
  ∧ length (Csv.norm_location s) ≤ length s
  ∧ strip (Csv.norm_location s) = Csv.norm_location s.
Proof.
  destruct (replace_dashes_spec s) as (Hlen & Hstrip & Hsame).
  unfold Etl.normalize_location, Csv.norm_location.
  destruct s as [|c s]; [by split_and!|]. simpl nonempty. cbv iota.
  split_and!; try done. intros H1 H2. by rewrite Hsame.
Qed.

Lemma normalize_location_spec_witness :
  Etl.normalize_location (str_of " Berlin ") = str_of "Berlin".
Proof.
  destruct (normalize_location_spec (str_of " Berlin ")) as (_ & _ & _ & Hsame & _).
  apply Hsame.
  - by apply split_once_None.
  - by apply split_once_None.
Defined.

(** ** What an untruncated label shows *)

Lemma contains_refl s : contains s s.
Proof. exists [], []. by rewrite app_nil_r. Qed.

Lemma contains_trans s t u : contains s t → contains t u → contains s u.
Proof.
  intros (p1 & s1 & ->) (p2 & s2 & ->). exists (p1 ++ p2), (s2 ++ s1).
  by rewrite <-!app_assoc.
Qed.

Lemma join_contains sep l x : x ∈ l → contains (join sep l) x.
Proof.
  induction l as [|y l IH]; [by intros ?%elem_of_nil|].
  intros Hx. destruct l as [|z l].
  - apply list_elem_of_singleton in Hx as ->. apply contains_refl.
  - change (join sep (y :: z :: l)) with (y ++ sep ++ join sep (z :: l)).
    apply elem_of_cons in Hx as [->|Hx].
    + by exists [], (sep ++ join sep (z :: l)).
    + destruct (IH Hx) as (p & s & ->). exists (y ++ sep ++ p), s.
      by rewrite <-!app_assoc.
Qed.

Lemma present_elem (l : list (gset pystr * pystr)) s tok :
  (s, tok) ∈ l → s ≠ ∅ → tok ∈ Etl.present l.
Proof.
  intros Hin Hs. unfold Etl.present. apply list_elem_of_fmap.
  exists (s, tok). split; [done|]. by apply list_elem_of_filter.
Qed.

Lemma joined_contains (s : gset pystr) v : v ∈ s → contains (Etl.joined s) v.
Proof.
  intros Hv. apply join_contains, elem_of_sorted. by apply elem_of_elements.
Qed.

Lemma joined_locations_contains (s : gset pystr) v :
  v ∈ s → contains (Etl.joined_locations s) (Etl.normalize_location v).
Proof.
  intros Hv. apply join_contains, list_elem_of_fmap_2, elem_of_sorted.
  by apply elem_of_elements.
Qed.

Lemma label_joined_contains (info : Etl.edge_info) (s : gset pystr) (tok v shown : pystr) :
  (s, tok) ∈ Etl.code_order info → v ∈ s → contains tok shown →
  contains (Etl.label_joined info) shown.
Proof.
  intros Hin Hv Htok. apply (contains_trans _ tok); [|done].
  unfold Etl.label_joined. rewrite etl_label_parts_order.
  apply join_contains, (present_elem _ s); [done|].
  intros ->. by apply elem_of_empty in Hv.
Qed.

(** X18: a detailed label of the Airtable pipeline that is not truncated
    shows every value the edge keeps: each value of the competencies,
    technical competencies, impacts, regions and cohorts as it is, and each
    city and country normalised. *)
Theorem untruncated_label_shows_values info ct v :
  v ∈ Etl.values_of ct info →
  length (Etl.label_joined info) ≤ 120 →
  contains (Etl.label_detailed info)
    (if decide (ct = Etl.CITY ∨ ct = Etl.COUNTRY)
     then Etl.normalize_location v else v).
Proof.
  intros Hv Hlen.
  destruct (etl_truncate_spec (Etl.label_joined info)) as (_ & Hsame & _).
  unfold Etl.label_detailed. rewrite (Hsame Hlen). clear Hsame Hlen.
  unfold Etl.values_of in Hv.
  destruct (decide (ct = Etl.COMPETENCY)) as [->|?].
  { eapply label_joined_contains; [left|done|by apply joined_contains]. }
  destruct (decide (ct = Etl.TECHNICAL_COMPETENCY)) as [->|?].
  { eapply label_joined_contains; [right; left|done|by apply joined_contains]. }
  destruct (decide (ct = Etl.IMPACT)) as [->|?].
  { eapply label_joined_contains; [do 2 right; left|done|by apply joined_contains]. }
  destruct (decide (ct = Etl.CITY)) as [->|?].
  { eapply label_joined_contains;
      [do 3 right; left|done|by apply joined_locations_contains]. }
  destruct (decide (ct = Etl.COUNTRY)) as [->|?].
  { eapply label_joined_contains;
      [do 4 right; left|done|by apply joined_locations_contains]. }
  rewrite decide_False by tauto.
  destruct (decide (ct = Etl.REGION)) as [->|?].
  { eapply label_joined_contains; [do 5 right; left|done|by apply joined_contains]. }
  destruct (decide (ct = Etl.COHORT)) as [->|?].
  { eapply label_joined_contains; [do 6 right; left|done|by apply joined_contains]. }
  by apply elem_of_empty in Hv.
Qed.

Lemma untruncated_label_shows_values_witness :
  contains (Etl.label_detailed Ex.ml_info) (str_of "ML").
Proof.
  apply (untruncated_label_shows_values Ex.ml_info Etl.COMPETENCY (str_of "ML")).
  - apply (bool_decide_unpack _). vm_compute. exact I.
  - vm_compute. lia.
Defined.

(** ** The tokens of the label of the CSV pipeline *)

(** X19: no token of the detailed label of the CSV pipeline is empty after
    normalisation, and no two tokens are equal after collapsing white space
    and lower-casing, so that a target that is the source in another
    spelling is left out.  The first token is the source name, when it is
    not empty and has a non-empty normal form. *)
Theorem label_tokens_distinct lower source target conns :
  NoDup (Csv.norm_key lower <$> Csv.final_parts lower source target conns)
  ∧ Forall (λ tok, Csv.norm_key lower tok ≠ [])
      (Csv.final_parts lower source target conns)
  ∧ (source ≠ [] → Csv.norm_key lower source ≠ [] →
     head (Csv.final_parts lower source target conns) = Some source
     ∧ (Csv.norm_key lower target = Csv.norm_key lower source →
        target ∉ tail (Csv.final_parts lower source target conns))).
Proof.
  split_and!.
  - apply dedupe_go_NoDup.
  - apply Forall_forall. by intros tok (_ & Hk & _)%dedupe_go_elem.
  - intros Hs Hk.
    pose proof (dedupe_go_NoDup lower ∅
      (Csv.raw_parts source target
         (Csv.multi_str lower (Csv.parse lower conns) (str_of "competency"))
         (Csv.multi_str lower (Csv.parse lower conns) (str_of "impact"))
         (Csv.multi_str lower (Csv.parse lower conns) (str_of "target_market"))
         (Csv.first_location (Csv.parse lower conns) (str_of "city"))
         (Csv.first_location (Csv.parse lower conns) (str_of "country")))) as Hnd.
    fold (Csv.final_parts lower source target conns) in Hnd.
    assert (head (Csv.final_parts lower source target conns) = Some source) as Hhead.
    { unfold Csv.final_parts. rewrite csv_raw_parts_order, filter_cons.
      rewrite decide_True by done. rewrite dedupe_go_cons.
      rewrite decide_True; [done|]. split; [done|apply not_elem_of_empty]. }
    split; [done|]. intros Heq.
    destruct (Csv.final_parts lower source target conns) as [|t0 rest]; [done|].
    simpl in *. injection Hhead as ->.
    apply NoDup_cons in Hnd as [Hnd _]. intros Hin. apply Hnd.
    rewrite <-Heq. by apply list_elem_of_fmap_2.
Qed.

Lemma label_tokens_distinct_witness :
  head (Csv.final_parts ascii_lower (str_of "Acme") (str_of "ACME") [])
  = Some (str_of "Acme")
  ∧ str_of "ACME" ∉ tail (Csv.final_parts ascii_lower (str_of "Acme") (str_of "ACME") []).
Proof.
  destruct (label_tokens_distinct ascii_lower (str_of "Acme") (str_of "ACME") [])
    as (_ & _ & H).
  destruct H as [Hhead Htail]; [by intros [=]|by intros [=]|].
  split; [exact Hhead|]. apply Htail. reflexivity.
Defined.

(** ** Deduplication in the two pipelines *)

Lemma exported_values_make_edge iter k info ct :
  ct ∈ Etl.conn_types →
  Etl.exported_values ct (Etl.make_edge iter k info) = iter (Etl.values_of ct info).
Proof.
  intros Hct. unfold Etl.exported_values, Etl.values_of, Etl.make_edge.
  repeat (case_decide; [done|]).
  unfold Etl.conn_types, Etl.extractors in Hct. simpl in Hct.
  repeat (apply elem_of_cons in Hct as [?|Hct]; [done|]).
  by apply elem_of_nil in Hct.
Qed.

(** The token of a connection type that has a value: its values, sorted,
    the locations normalised, joined with "; ". *)
Lemma etl_token_in_label info ct :
  ct ∈ Etl.conn_types → Etl.values_of ct info ≠ ∅ →
  join (str_of "; ")
    (if decide (ct = Etl.CITY ∨ ct = Etl.COUNTRY)
     then Etl.normalize_location <$> sorted (elements (Etl.values_of ct info))
     else sorted (elements (Etl.values_of ct info)))
  ∈ Etl.label_parts info.
Proof.
  intros Hct Hne. rewrite etl_label_parts_order. unfold Etl.values_of in *.
  destruct (decide (ct = Etl.COMPETENCY)) as [->|?].
  { rewrite decide_False by (intros [H|H]; vm_compute in H; congruence).
    apply (present_elem _ (Etl.competencies info)); [left|done]. }
  destruct (decide (ct = Etl.TECHNICAL_COMPETENCY)) as [->|?].
  { rewrite decide_False by (intros [H|H]; vm_compute in H; congruence).
    apply (present_elem _ (Etl.technical_competencies info)); [right; left|done]. }
  destruct (decide (ct = Etl.IMPACT)) as [->|?].
  { rewrite decide_False by (intros [H|H]; vm_compute in H; congruence).
    apply (present_elem _ (Etl.impacts info)); [do 2 right; left|done]. }
  destruct (decide (ct = Etl.CITY)) as [->|?].
  { rewrite decide_True by (by left).
    apply (present_elem _ (Etl.cities info)); [do 3 right; left|done]. }
  destruct (decide (ct = Etl.COUNTRY)) as [->|?].
  { rewrite decide_True by (by right).
    apply (present_elem _ (Etl.countries info)); [do 4 right; left|done]. }
  rewrite decide_False by tauto.
  destruct (decide (ct = Etl.REGION)) as [->|?].
  { apply (present_elem _ (Etl.regions info)); [do 5 right; left|done]. }
  destruct (decide (ct = Etl.COHORT)) as [->|?].
  { apply (present_elem _ (Etl.cohorts info)); [do 6 right; left|done]. }
  done.
Qed.

(** C6, amended: in the CSV pipeline the values of a category that go into
    the label (competency, impact, target market) are deduplicated on their
    white-space-collapsed, lower-cased key: no two kept values have the same
    key and none has an empty key, the kept values are a subsequence of the
    parsed ones, every parsed value with a non-empty key has its key among
    the kept ones, and a value is kept exactly when its key is non-empty and
    was not seen before it (first-seen order).  In the Airtable pipeline the
    values of a category are a set of strings compared as they are: the
    list an edge exports for a connection type holds no string twice and
    holds exactly the values of the sharing events of the edge and type, each
    as the string it is, whatever two of them have in common after
    lower-casing or collapsing white space; the token of the type in the
    label is these values sorted (locations normalised) and joined with
    "; ", and a label of at most 120 characters shows each of them. *)
Theorem dedup_case_insensitive :
  (∀ lower conns k,
     let parsed := Csv.parse lower conns in
     let values := Csv.dedupe_preserve_order lower (parsed !!! k) in
     Csv.multi_str lower parsed k = join (str_of ";") values
     ∧ NoDup (Csv.norm_key lower <$> values)
     ∧ Forall (λ s, Csv.norm_key lower s ≠ []) values
     ∧ values `sublist_of` parsed !!! k
     ∧ (∀ s, s ∈ parsed !!! k → Csv.norm_key lower s ≠ [] →
          Csv.norm_key lower s ∈ Csv.norm_key lower <$> values))
  ∧ (∀ lower l s,
       Csv.dedupe_preserve_order lower (l ++ [s])
       = Csv.dedupe_preserve_order lower l
         ++ (if decide (Csv.norm_key lower s ≠ []
                        ∧ (Csv.norm_key lower s ∉ Csv.norm_key lower <$> l))
             then [s] else []))
  ∧ (∀ info,
       Forall (λ s : gset pystr, NoDup (sorted (elements s)))
         [Etl.competencies info; Etl.technical_competencies info; Etl.impacts info;
          Etl.cities info; Etl.countries info; Etl.regions info; Etl.cohorts info])
  ∧ (∀ iter idx k info ct,
       iteration_order iter →
       Etl.combine idx !! k = Some info →
       ct ∈ Etl.conn_types →
       let exported := Etl.exported_values ct (Etl.make_edge iter k info) in
       let shown v :=
         if decide (ct = Etl.CITY ∨ ct = Etl.COUNTRY)
         then Etl.normalize_location v else v in
       NoDup exported
       ∧ (∀ v, v ∈ exported
               ↔ ∃ ev, ev ∈ Etl.sharing_events idx ∧ Etl.event_key ev = k
                   ∧ Etl.ev_type ev = ct ∧ Etl.ev_value ev = v)
       ∧ (exported ≠ [] →
          join (str_of "; ")
            (if decide (ct = Etl.CITY ∨ ct = Etl.COUNTRY)
             then Etl.normalize_location <$> sorted exported
             else sorted exported)
          ∈ Etl.label_parts info)
       ∧ (∀ v, v ∈ exported → contains (Etl.label_joined info) (shown v))
       ∧ (∀ v, v ∈ exported → length (Etl.label_joined info) ≤ 120 →
            contains (Etl.label_detailed info) (shown v))).
Proof.
  split_and!.
  - intros lower conns k parsed values. split_and!.
    + done.
    + apply dedupe_go_NoDup.
    + apply Forall_forall. by intros s (_ & Hk & _)%dedupe_go_elem.
    + apply dedupe_go_sublist.
    + intros s Hs Hk.
      destruct (dedupe_go_complete lower ∅ _ _ Hs Hk) as [?%elem_of_empty|?]; done.
  - intros lower l s. unfold Csv.dedupe_preserve_order.
    rewrite dedupe_go_snoc. f_equal. apply decide_ext.
    split; [tauto|]. intros [? ?]. split_and!; [done| |done].
    apply not_elem_of_empty.
  - intros info. repeat constructor; apply sorted_NoDup, NoDup_elements.
  - intros iter idx k info ct Horder Hk Hct exported shown.
    unfold exported. rewrite (exported_values_make_edge iter k info ct Hct).
    set (values := Etl.values_of ct info).
    assert (∀ v, v ∈ iter values ↔ v ∈ values) as Hin.
    { intros v. by rewrite (Horder values), elem_of_elements. }
    assert (iter values ≠ [] →
            join (str_of "; ")
              (if decide (ct = Etl.CITY ∨ ct = Etl.COUNTRY)
               then Etl.normalize_location <$> sorted (iter values)
               else sorted (iter values))
            ∈ Etl.label_parts info) as Htoken.
    { intros Hne. rewrite (sorted_perm_eq _ _ (Horder values)).
      apply etl_token_in_label; [done|]. fold values. intros Hempty.
      apply Hne, Permutation_nil_r. by rewrite (Horder values), Hempty, elements_empty. }
    assert (∀ v, v ∈ iter values → contains (Etl.label_joined info) (shown v)) as Hshown.
    { intros v Hv. eapply contains_trans.
      - apply join_contains, Htoken. intros Hnil. rewrite Hnil in Hv.
        by apply elem_of_nil in Hv.
      - apply join_contains. unfold shown. case_decide.
        + by apply list_elem_of_fmap_2, elem_of_sorted.
        + by apply elem_of_sorted. }
    split_and!; [|intros v|done|done|].
    + rewrite (Horder values). apply NoDup_elements.
    + rewrite Hin. unfold values.
      pose proof (etl_values_spec idx k ct v) as Hspec. rewrite Hk in Hspec.
      simpl in Hspec. rewrite Hspec. tauto.
    + intros v Hv Hlen.
      destruct (etl_truncate_spec (Etl.label_joined info)) as (_ & Hsame & _).
      unfold Etl.label_detailed. rewrite (Hsame Hlen). by apply Hshown.
Qed.

(** Of "ML", "NLP", " ml " and "N  LP" the CSV pipeline keeps the first
    two; the edge of two startups that both list "ML" and "ml" exports
    both. *)
Lemma dedup_case_insensitive_witness :
  (let conns := Csv.CellStr <$> [str_of "competency: ML"; str_of "competency: NLP";
                                 str_of "competency:  ml "; str_of "Competency: nlp"] in
   let values := Csv.dedupe_preserve_order ascii_lower
                   (Csv.parse ascii_lower conns !!! str_of "competency") in
   values = [str_of "ML"; str_of "NLP"] ∧ NoDup (Csv.norm_key ascii_lower <$> values))
  ∧ ∃ info, Etl.combined_edges Ex.case_records !! (Ex.A, Ex.B) = Some info
      ∧ str_of "ML"
        ∈ Etl.exported_values Etl.COMPETENCY (Etl.make_edge elements (Ex.A, Ex.B) info)
      ∧ str_of "ml"
        ∈ Etl.exported_values Etl.COMPETENCY (Etl.make_edge elements (Ex.A, Ex.B) info).
Proof.
  split.
  - intros conns values. split; [vm_compute; reflexivity|].
    apply (proj1 dedup_case_insensitive ascii_lower conns (str_of "competency")).
  - assert (Etl.Event Ex.A Ex.B Etl.COMPETENCY (str_of "ML")
            ∈ Etl.sharing_events (Etl.build_index Ex.case_records)) as HML
      by (vm_compute; repeat constructor).
    assert (Etl.Event Ex.A Ex.B Etl.COMPETENCY (str_of "ml")
            ∈ Etl.sharing_events (Etl.build_index Ex.case_records)) as Hml
      by (vm_compute; repeat constructor).
    destruct (proj2 (etl_edge_iff_event (Etl.build_index Ex.case_records) (Ex.A, Ex.B)))
      as [info Hk].
    { eexists. split; [exact HML|reflexivity]. }
    exists info. split; [exact Hk|].
    destruct (proj2 (proj2 (proj2 dedup_case_insensitive))
                elements (Etl.build_index Ex.case_records) (Ex.A, Ex.B) info
                Etl.COMPETENCY) as (_ & Hin & _).
    + intros s. reflexivity.
    + exact Hk.
    + apply (bool_decide_unpack _). vm_compute. exact I.
    + split; apply Hin.
      * eexists. split; [exact HML|]. split_and!; reflexivity.
      * eexists. split; [exact Hml|]. split_and!; reflexivity.
Defined.
